(** * Pencil-drawing stylisation

    lime, examples/pencil_drawing/pencil_drawing.cpp.

    A shallow embedding of the four routines of the example
    ([quantizeOrientation], [LIConv], [pencilDrawing], [pencilDrawingLOD])
    and the properties of the written specification that concern them.

    Conventions of the embedding.
    - [float] and [double] values are real numbers; a cast between the two
      is the identity.  The statements below are therefore statements of
      exact real arithmetic.
    - [int] values are integers of [Z]; the products [width * height] of
      [pencilDrawing] are reduced to 32 bits ([int_mul]).
    - A [cv::Mat] is its extent, channel count, depth and its indexing
      function [at_ m y j] (row [y], flat column [j = x * channels + c]),
      as in [m.at<T>(y, j)].
    - Matrices passed by reference and written through live in a store of
      matrices indexed by locations, so that two parameters may denote the
      same matrix.
    - The routines of OpenCV and of the lime library that the file calls
      but does not define are fields of the record [Env].
    - [showProgress] only prints; it is left out. *)

From Stdlib Require Import ZArith List Bool Lia Reals Lra Permutation Finite.
From Stdlib Require Import FunctionalExtensionality.
From Stdlib Require String Ascii.
Import String.StringSyntax.
Delimit Scope string_scope with string.
Import ListNotations.

Local Open Scope Z_scope.
Local Open Scope R_scope.

(** ** Numbers *)

(** The conversion [(int)r] of a floating value: truncation toward zero. *)
Definition trunc (r : R) : Z :=
  if Rle_dec 0 r then Zfloor r else Zceil r.

(** [cvRound]: rounding to the nearest integer, ties to even. *)
Definition cvRound (r : R) : Z :=
  let f := Zfloor r in
  let d := r - IZR f in
  if Rlt_dec d (1 / 2) then f
  else if Rlt_dec (1 / 2) d then (f + 1)%Z
  else if Z.even f then f else (f + 1)%Z.

(** [cv::saturate_cast<uchar>]. *)
Definition saturate_uchar (z : Z) : Z := Z.max 0 (Z.min 255 z).

(** Reduction of an integer to the 32-bit two's complement range. *)
Definition wrap32 (z : Z) : Z :=
  ((z + 2147483648) mod 4294967296 - 2147483648)%Z.

(** [a * b] on [int]. *)
Definition int_mul (a b : Z) : Z := wrap32 (a * b).

(** The integers [lo, lo+1, ..., hi-1]: the index set of
    [for (i = lo; i < hi; i++)]. *)
Definition zrange (lo hi : Z) : list Z :=
  map (fun i => (lo + Z.of_nat i)%Z) (seq 0 (Z.to_nat (hi - lo))).

(** The integers [hi, hi-1, ..., lo]: the index set of
    [for (l = hi; l >= lo; l--)]. *)
Definition zrange_down (hi lo : Z) : list Z := rev (zrange lo (hi + 1)).

(** Sum of a list of reals. *)
Definition Rsum (l : list R) : R := fold_right Rplus 0 l.

(** Equality test on reals. *)
Definition Reqb (a b : R) : bool := if Req_dec_T a b then true else false.

(** Strict comparison test on reals. *)
Definition Rltb (a b : R) : bool := if Rlt_dec a b then true else false.

(** ** Global constants of the file *)

Module Const.
Definition tau : R := PI / 6.
Definition t_disc : Z := 24.
Definition s_disc : Z := 24.
Definition sigma_1 : R := 4.
Definition sigma_2 : R := 2.
Definition S : R := 7.
Definition n : Z := 2.
Definition ksize : Z := 11.
End Const.

(** ** Matrices *)

Inductive Depth : Type :=
  CV_8U | CV_8S | CV_16U | CV_16S | CV_32S | CV_32F | CV_64F.

Definition depth_eqb (a b : Depth) : bool :=
  match a, b with
  | CV_8U, CV_8U | CV_8S, CV_8S | CV_16U, CV_16U | CV_16S, CV_16S
  | CV_32S, CV_32S | CV_32F, CV_32F | CV_64F, CV_64F => true
  | _, _ => false
  end.

Record Mat : Type := mkMat {
  rows : Z;
  cols : Z;
  channels : Z;
  depth : Depth;
  at_ : Z -> Z -> R
}.

(** [cv::Mat(rows, cols, type)]: the cells are unspecified until written;
    they are taken to be zero, as for [cv::Mat::zeros]. *)
Definition Mat_zeros (h w : Z) (d : Depth) (ch : Z) : Mat :=
  mkMat h w ch d (fun _ _ => 0).

(** The assignment [m.at<T>(y, j) = v]. *)
Definition mat_set (m : Mat) (y j : Z) (v : R) : Mat :=
  mkMat (rows m) (cols m) (channels m) (depth m)
        (fun y' j' => if ((y' =? y) && (j' =? j))%Z then v else at_ m y' j').

(** Whether pixel [(x, y)] lies in a [w] by [h] image. *)
Definition in_image (w h x y : Z) : bool :=
  ((0 <=? x) && (0 <=? y) && (x <? w) && (y <? h))%Z.

(** [src.convertTo(dst, type, alpha)] for a floating destination: every
    cell is scaled by [alpha]. *)
Definition convertTo_float (src : Mat) (d : Depth) (alpha : R) : Mat :=
  mkMat (rows src) (cols src) (channels src) d
        (fun y j => alpha * at_ src y j).

(** [src.convertTo(dst, CV_8UC1, alpha)]: every cell is scaled, rounded
    and saturated to [0, 255].  The product is exact here; the product of
    the code is rounded to [float] first, which can move a value that
    lies within a rounding step of a half-integer to the other side. *)
Definition convertTo_uchar (src : Mat) (alpha : R) : Mat :=
  mkMat (rows src) (cols src) (channels src) CV_8U
        (fun y j => IZR (saturate_uchar (cvRound (alpha * at_ src y j)))).

(** [cv::rectangle(m, cv::Rect(x, y, w, h), cv::Scalar(v, ..), -1)] on a
    single-channel matrix: the cells of the rectangle that lie inside the
    matrix are set to [v]. *)
Definition rectangle (m : Mat) (x y w h : Z) (v : R) : Mat :=
  mkMat (rows m) (cols m) (channels m) (depth m)
        (fun r c =>
           if ((x <=? c) && (c <? x + w) && (y <=? r) && (r <? y + h)
               && in_image (cols m) (rows m) c r)%Z
           then v else at_ m r c).

(** The matrix expressions [a + b] and [a / s]. *)
Definition mat_add (a b : Mat) : Mat :=
  mkMat (rows a) (cols a) (channels a) (depth a)
        (fun y j => at_ a y j + at_ b y j).

Definition mat_div (a : Mat) (s : R) : Mat :=
  mkMat (rows a) (cols a) (channels a) (depth a)
        (fun y j => at_ a y j / s).

(** The pixels of an [h]-row, [w]-column image in scan order, as
    (row, column) pairs. *)
Definition grid (h w : Z) : list (Z * Z) :=
  flat_map (fun y => map (fun x => (y, x)) (zrange 0 w)) (zrange 0 h).

(** Number of nonzero cells of a single-channel matrix. *)
Definition count_nonzero (m : Mat) : nat :=
  length (filter (fun p => negb (Reqb (at_ m (fst p) (snd p)) 0))
                 (grid (rows m) (cols m))).

(** [cv::InterpolationFlags]. *)
Inductive Interpolation : Type :=
  INTER_NEAREST | INTER_LINEAR | INTER_CUBIC | INTER_AREA | INTER_LANCZOS4.

(** [cv::Point2f]. *)
Record Point2f : Type := mkPoint { pt_x : R; pt_y : R }.

(** A [std::vector<double>] of [dim] entries, by its indexing function. *)
Definition vec : Type := Z -> R.

Definition vfill (x : R) : vec := fun _ => x.

Definition vset (v : vec) (c : Z) (x : R) : vec :=
  fun c' => if (c' =? c)%Z then x else v c'.

(** ** The store of matrices passed by reference *)

Definition loc : Type := nat.
Definition Store : Type := loc -> Mat.

Definition store_set (st : Store) (l : loc) (m : Mat) : Store :=
  fun l' => if Nat.eqb l' l then m else st l'.

(** ** Collaborators

    [distanceTransform] (called with [cv::DIST_L2] and mask size 3),
    [bilateralFilter], [cvtColor] (called with [cv::COLOR_BGR2GRAY]) and
    [resize] are OpenCV's; [gauss] (math_utils.h), the generator
    [lime::Random] and [npr::edgeDoG], [npr::calcVectorField],
    [npr::uniformNoise] belong to the lime library.  [Gen] is the state
    of the generator behind [lime::Random]; [getRNG] is the effect on it
    of obtaining the generator, [randInt] draws an integer.
    [uniformNoise] is the only other routine that may consume random
    numbers. *)

Record Env : Type := mkEnv {
  gauss : R -> R -> R;
  Gen : Type;
  getRNG : Gen -> Gen;
  randInt : Z -> Gen -> Z * Gen;
  distanceTransform : Mat -> Mat;
  bilateralFilter : Mat -> Z -> R -> R -> Mat;
  cvtColor : Mat -> Mat;
  resize : Mat -> Z * Z -> R -> R -> Interpolation -> Mat;
  edgeDoG : Mat -> Mat;
  calcVectorField : Mat -> Z -> Mat;
  uniformNoise : Mat -> Mat -> Z -> Gen -> Mat * Gen
}.

(** The generator together with the number of draws the routines of this
    file have made. *)
Record RandState (E : Env) : Type := mkRand {
  gen : Gen E;
  calls : nat
}.
Arguments mkRand {E} _ _.
Arguments gen {E} _.
Arguments calls {E} _.

(** ** The routines of pencil_drawing.cpp *)

(** The loop nest [for (y = 0; y < height; y++) for (x = 0; x < width; x++)]
    over a loop state of type [A]. *)
Definition for_pixels {A : Type} (height width : Z)
    (body : A -> Z -> Z -> A) (a : A) : A :=
  fold_left (fun a y => fold_left (fun a x => body a y x) (zrange 0 width) a)
            (zrange 0 height) a.

Section Routines.

Variable E : Env.

(** *** quantizeOrientation *)

(** The first loop nest of [quantizeOrientation]: the converted edge map
    becomes a 0/1 mask, 0 where the converted value is below 192. *)
Definition binarize (height width : Z) (uedge : Mat) : Mat :=
  for_pixels height width
    (fun u y x =>
       if Rltb (at_ u y x) 192 then mat_set u y x 0 else mat_set u y x 1)
    uedge.

(** The distance map that [quantizeOrientation] derives from the edge
    map: [convertTo], binarisation, [cv::distanceTransform]. *)
Definition edge_distance (height width : Z) (edge : Mat) : Mat :=
  distanceTransform E (binarize height width (convertTo_uchar edge 255)).

(** The value written over the angle [theta] of a pixel far from the
    zero pixels of the mask. *)
Definition snap (theta : R) : R :=
  let q_s := - PI / 4 in
  let q_t := PI in
  IZR (Zceil (theta / q_t)) * q_t + q_s.

(** [quantizeOrientation(vfield, edge)]; both parameters are references
    into the store. *)
Definition quantizeOrientation (vfield edge : loc) (st : Store) : Store :=
  let width := cols (st vfield) in
  let height := rows (st vfield) in
  let threshold := IZR (Z.max width height) / 50 in
  let distmap := edge_distance height width (st edge) in
  for_pixels height width
    (fun st y x =>
       if Rltb threshold (at_ distmap y x) then
         let theta := at_ (st vfield) y x in
         store_set st vfield (mat_set (st vfield) y x (snap theta))
       else st)
    st.

(** *** LIConv *)

(** [rand.randInt(b)]: one draw, counted. *)
Definition rand_randInt (b : Z) (s : RandState E) : Z * RandState E :=
  let r := randInt E b (gen s) in
  (fst r, mkRand (snd r) (S (calls s))).

(** [lime::Random::getRNG()]. *)
Definition rand_getRNG (s : RandState E) : RandState E :=
  mkRand (getRNG E (gen s)) (calls s).

Section Pixel.

Variables (bilateral etf noise : Mat) (width height dim : Z).
Variables (y x : Z).

(** Body of the loop over the channels [c] inside the sample loop; the
    loop state is the pair [(s_sum, w_sum)]. *)
Definition channel_step (yy xx : Z) (acc : vec * vec) (c : Z) : vec * vec :=
  let dI := at_ bilateral yy (xx * dim + c) - at_ bilateral y (x * dim + c) in
  let G2 := gauss E dI Const.sigma_2 in
  (vset (fst acc) c
        (fst acc c
         + G2 * at_ noise yy xx * (1 - at_ bilateral y (x * dim + c))),
   vset (snd acc) c (snd acc c + G2)).

(** Body of the loop over the samples [s] along the angle [theta]. *)
Definition sample_step (theta : R) (acc : vec * vec) (s : Z) : vec * vec :=
  let scale := Const.S / IZR Const.s_disc * IZR s in
  let xx := trunc (IZR x + scale * cos theta) in
  let yy := trunc (IZR y + scale * sin theta) in
  if in_image width height xx yy
  then fold_left (channel_step yy xx) (zrange 0 dim) acc
  else acc.

(** Body of the loop over the angle candidates [t]; the loop state is
    the pair [(sum, weight)].  [s_sum] and [w_sum] are refilled with
    zeros at every candidate. *)
Definition angle_step (t_i : R) (acc : vec * vec) (t : Z) : vec * vec :=
  let theta := Const.tau / IZR Const.t_disc * IZR t + at_ etf y x in
  let sw := fold_left (sample_step theta)
                      (zrange (- Const.s_disc) (Const.s_disc + 1))
                      (vfill 0, vfill 0) in
  let G1 := gauss E (t_i - theta) Const.sigma_1 in
  fold_left
    (fun acc c =>
       (vset (fst acc) c (fst acc c + G1 * fst sw c),
        vset (snd acc) c (snd acc c + G1 * snd sw c)))
    (zrange 0 dim) acc.

(** The accumulators [(sum, weight)] of a pixel after the loop over the
    angle candidates. *)
Definition pixel_accum (t_i : R) : vec * vec :=
  fold_left (angle_step t_i)
            (zrange (- Const.t_disc) (Const.t_disc + 1))
            (vfill 0, vfill 0).

(** The final loop over the channels: the pixel is written. *)
Definition pixel_write (ratio : R) (sw : vec * vec) (lic : Mat) : Mat :=
  fold_left
    (fun lic c =>
       mat_set lic y (x * dim + c) (1 - fst sw c / (ratio * snd sw c)))
    (zrange 0 dim) lic.

(** The jitter angle of a draw [k]. *)
Definition jitter (k : Z) : R :=
  Const.tau / IZR Const.n * IZR (k - Const.n).

(** Body of the loop nest of [LIConv]. *)
Definition LIConv_pixel (ratio : R) (a : Mat * RandState E)
  : Mat * RandState E :=
  let r := rand_randInt (2 * Const.n + 1) (snd a) in
  let t_i := jitter (fst r) in
  (pixel_write ratio (pixel_accum t_i) (fst a), snd r).

End Pixel.

(** The two assertions at the head of [LIConv]. *)
Definition LIConv_assert (img m : Mat) : bool :=
  ((cols img =? cols m) && (rows img =? rows m) && (channels m =? 1))%Z
  && depth_eqb (depth m) CV_32F.

(** [LIConv(lic, img, etf, noise, ratio)]: [None] when an assertion
    fails, otherwise the matrix [lic] and the generator. *)
Definition LIConv (img etf noise : Mat) (ratio : R) (s : RandState E)
  : option (Mat * RandState E) :=
  let width := cols img in
  let height := rows img in
  let dim := channels img in
  if LIConv_assert img etf && LIConv_assert img noise then
    let bilateral := bilateralFilter E img 19 (1 / 2) 15 in
    let lic := Mat_zeros height width (depth img) dim in
    let rand := rand_getRNG s in
    Some (for_pixels height width
            (fun a y x =>
               LIConv_pixel bilateral etf noise width height dim y x ratio a)
            (lic, rand))
  else None.

(** *** pencilDrawing *)

(** The block "Generate noise" of [pencilDrawing]: the noise field and
    the normalisation factor [ratio]. *)
Definition composeNoise (width height : Z) (gray : Mat)
    (points : list Point2f) (g : Gen E) : (Mat * R) * Gen E :=
  match points with
  | [] =>
      let nNoise := trunc (0.2 * IZR (int_mul width height)) in
      let noise := Mat_zeros height width CV_32F 1 in
      let r := uniformNoise E noise gray
                 (trunc (0.3 * IZR width * IZR height)) g in
      ((fst r, 1.5 * IZR nNoise / IZR (int_mul width height)), snd r)
  | _ :: _ =>
      let nNoise := wrap32 (Z.of_nat (length points)) in
      let noise := Mat_zeros height width CV_32F 1 in
      (fold_left
         (fun a i =>
            let p := nth (Z.to_nat i) points (mkPoint 0 0) in
            let px := trunc (pt_x p) in
            let py := trunc (pt_y p) in
            (rectangle (fst a) px py 1 1 1,
             1.2 * IZR nNoise / IZR (int_mul width height)))
         (zrange 0 nNoise) (noise, 1),
       g)
  end.

(** The conversion of the input at the head of [pencilDrawing]: 8-bit
    images are scaled to [0, 1]. *)
Definition float_image (input : Mat) : Mat :=
  if depth_eqb (depth input) CV_8U
  then convertTo_float input CV_32F (1 / 255)
  else convertTo_float input CV_32F 1.

(** Locations of the local matrices [vfield] and [edge]. *)
Definition l_vfield : loc := 0%nat.
Definition l_edge : loc := 1%nat.

(** [pencilDrawing(input, out, points)]. *)
Definition pencilDrawing (input : Mat) (points : list Point2f)
    (s : RandState E) : option (Mat * RandState E) :=
  let width := cols input in
  let height := rows input in
  let dim := channels input in
  let img := float_image input in
  let gray := cvtColor E img in
  let edge := edgeDoG E gray in
  let vfield := calcVectorField E gray Const.ksize in
  let st := store_set (store_set (fun _ => Mat_zeros 0 0 CV_8U 1)
                                 l_vfield vfield) l_edge edge in
  let st := quantizeOrientation l_vfield l_edge st in
  let nr := composeNoise width height gray points (gen s) in
  LIConv img (st l_vfield) (fst (fst nr)) (snd (fst nr))
         (mkRand (snd nr) (calls s)).

(** *** pencilDrawingLOD *)

(** The anchor points scaled for one level. *)
Definition scale_points (points : list Point2f) (scale : R) : list Point2f :=
  map (fun p => mkPoint (pt_x p * scale) (pt_y p * scale)) points.

(** Body of the loop over the levels; the loop state is [out] and the
    generator, or [None] once a level has failed. *)
Definition LOD_step (img : Mat) (points : list Point2f)
    (acc : option (Mat * RandState E)) (l : Z)
  : option (Mat * RandState E) :=
  match acc with
  | None => None
  | Some (out, s) =>
      let scale := 1 / powerRZ 2 (l - 1) in
      let I := resize E img (0, 0)%Z scale scale INTER_CUBIC in
      let P := scale_points points scale in
      match pencilDrawing I P s with
      | None => None
      | Some (o, s') =>
          let o := resize E o (cols img, rows img) 0 0 INTER_CUBIC in
          Some (mat_add out o, s')
      end
  end.

(** [pencilDrawingLOD(img, out, points, level)]. *)
Definition pencilDrawingLOD (img : Mat) (points : list Point2f) (level : Z)
    (s : RandState E) : option (Mat * RandState E) :=
  let width := cols img in
  let height := rows img in
  let dim := channels img in
  let out := Mat_zeros height width CV_32F dim in
  match fold_left (LOD_step img points) (zrange_down level 1) (Some (out, s))
  with
  | None => None
  | Some (out, s') => Some (mat_div out (IZR level), s')
  end.

End Routines.

(** ** The specification's reference definitions

    These follow the wording of the specification (sections 4.3 and 4.4),
    with its constants written out; they are compared with the routines
    above in the theorems. *)

Section Reference.

Variable E : Env.

(** The generator after [i] draws of the convolver. *)
Definition gen_after (i : nat) (g : Gen E) : Gen E :=
  Nat.iter i (fun g => snd (randInt E 5 g)) g.

(** The integer drawn for the [i]-th pixel of a scan that obtains the
    generator in state [g]. *)
Definition draw_at (g : Gen E) (i : nat) : Z :=
  fst (randInt E 5 (gen_after i (getRNG E g))).

(** Step 1: the perturbation [t_i = (pi/6)/n * (k - n)] with [n = 2]. *)
Definition ref_jitter (k : Z) : R := PI / 6 / 2 * IZR (k - 2).

Section AtPixel.

Variables (B etf noise : Mat) (width height dim : Z) (y x : Z).

(** Step 2: the candidate angle of step [t]. *)
Definition ref_theta (t : Z) : R := PI / 6 / 24 * IZR t + at_ etf y x.

(** Step 3: the integer pixel [(xx, yy)] on which sample [s] lands. *)
Definition ref_landing (theta : R) (s : Z) : Z * Z :=
  let scale := 7 / 24 * IZR s in
  (trunc (IZR x + scale * cos theta), trunc (IZR y + scale * sin theta)).

(** Step 3: the samples of [s] in [-24, 24] that fall inside the image. *)
Definition ref_samples (theta : R) : list (Z * Z) :=
  filter (fun p => in_image width height (fst p) (snd p))
         (map (ref_landing theta) (zrange (-24) 25)).

(** Step 4: the tone-similarity weight of a sample in channel [c]. *)
Definition ref_G2 (c : Z) (p : Z * Z) : R :=
  gauss E (at_ B (snd p) (fst p * dim + c) - at_ B y (x * dim + c)) 2.

Definition ref_s_sum (theta : R) (c : Z) : R :=
  Rsum (map (fun p => ref_G2 c p * at_ noise (snd p) (fst p)
                      * (1 - at_ B y (x * dim + c)))
            (ref_samples theta)).

Definition ref_w_sum (theta : R) (c : Z) : R :=
  Rsum (map (ref_G2 c) (ref_samples theta)).

(** Step 5: the weight of an angle candidate. *)
Definition ref_G1 (t_i : R) (t : Z) : R := gauss E (t_i - ref_theta t) 4.

Definition ref_sum (t_i : R) (c : Z) : R :=
  Rsum (map (fun t => ref_G1 t_i t * ref_s_sum (ref_theta t) c)
            (zrange (-24) 25)).

Definition ref_weight (t_i : R) (c : Z) : R :=
  Rsum (map (fun t => ref_G1 t_i t * ref_w_sum (ref_theta t) c)
            (zrange (-24) 25)).

(** Step 6: the output value. *)
Definition LIC_reference (ratio t_i : R) (c : Z) : R :=
  1 - ref_sum t_i c / (ratio * ref_weight t_i c).

End AtPixel.

(** Section 4.4: the anchor points of level [l], every coordinate of
    every point multiplied by the scale factor [1 / 2^(l-1)] of the level,
    in the order of the points. *)
Fixpoint level_anchors (points : list Point2f) (l : Z) : list Point2f :=
  match points with
  | [] => []
  | p :: ps =>
      mkPoint (1 / 2 ^ Z.to_nat (l - 1) * pt_x p)
              (1 / 2 ^ Z.to_nat (l - 1) * pt_y p)
      :: level_anchors ps l
  end.

(** Section 4.4: the result of one level [l], resized back to the extent
    of the input. *)
Definition level_result (img : Mat) (points : list Point2f) (l : Z)
    (s : RandState E) : option (Mat * RandState E) :=
  let scale := 1 / 2 ^ Z.to_nat (l - 1) in
  match pencilDrawing E (resize E img (0, 0)%Z scale scale INTER_CUBIC)
                      (level_anchors points l) s with
  | Some (o, s') => Some (resize E o (cols img, rows img) 0 0 INTER_CUBIC, s')
  | None => None
  end.

(** The results of the levels of the list [ls], run in that order. *)
Fixpoint level_results (img : Mat) (points : list Point2f) (ls : list Z)
    (s : RandState E) : option (list Mat * RandState E) :=
  match ls with
  | [] => Some ([], s)
  | l :: ls' =>
      match level_result img points l s with
      | None => None
      | Some (o, s') =>
          match level_results img points ls' s' with
          | None => None
          | Some (os, s'') => Some (o :: os, s'')
          end
      end
  end.

(** The unweighted average of the level results at a cell. *)
Definition LOD_reference (os : list Mat) (levels : Z) (y j : Z) : R :=
  Rsum (map (fun o => at_ o y j) os) / IZR levels.

(** Interface of the collaborators: the gray image has the extent of
    its source, the flow field is a single-channel float image of the
    extent of the gray image, and the noise synthesis fills the matrix it
    is given. *)
Record extents_ok : Prop := {
  cvtColor_extent : forall m,
    rows (cvtColor E m) = rows m /\ cols (cvtColor E m) = cols m;
  calcVectorField_extent : forall g k,
    rows (calcVectorField E g k) = rows g
    /\ cols (calcVectorField E g k) = cols g
    /\ channels (calcVectorField E g k) = 1%Z
    /\ depth (calcVectorField E g k) = CV_32F;
  uniformNoise_extent : forall m g k s,
    rows (fst (uniformNoise E m g k s)) = rows m
    /\ cols (fst (uniformNoise E m g k s)) = cols m
    /\ channels (fst (uniformNoise E m g k s)) = channels m
    /\ depth (fst (uniformNoise E m g k s)) = depth m
}.

End Reference.

(** ** A concrete environment

    An instance of the collaborators, used to run the routines on small
    images. *)

Module Demo.

(** An unnormalised Gaussian. *)
Definition gauss (d sigma : R) : R := exp (- (d * d) / (2 * sigma * sigma)).

(** A counting generator: the state is the number of draws so far. *)
Definition randInt (b : Z) (g : nat) : Z * nat :=
  ((Z.of_nat g) mod b, S g)%Z.

(** The 3x3 chamfer distance between two pixels. *)
Definition chamfer (dy dx : Z) : R :=
  0.955 * IZR (Z.abs (Z.abs dx - Z.abs dy))
  + 1.3693 * IZR (Z.min (Z.abs dx) (Z.abs dy)).

(** Distance to the nearest zero pixel; without a zero pixel every
    distance keeps the large initial value of the transform. *)
Definition distanceTransform (src : Mat) : Mat :=
  let zs := filter (fun p => Reqb (at_ src (fst p) (snd p)) 0)
                   (grid (rows src) (cols src)) in
  mkMat (rows src) (cols src) 1 CV_32F
        (fun y x =>
           fold_right (fun q d => Rmin (chamfer (y - fst q) (x - snd q)) d)
                      8192 zs).

Definition bilateralFilter (m : Mat) (d : Z) (sc ss : R) : Mat := m.

(** The first channel. *)
Definition cvtColor (m : Mat) : Mat :=
  mkMat (rows m) (cols m) 1 (depth m) (fun y x => at_ m y (x * channels m)).

(** Resampling by the nearest neighbour, whatever the method asked for;
    an image that already has the requested extent is returned as it
    is. *)
Definition resize (m : Mat) (dsize : Z * Z) (fx fy : R)
    (method : Interpolation) : Mat :=
  let d :=
    if ((fst dsize =? 0) && (snd dsize =? 0))%Z
    then (cvRound (IZR (cols m) * fx), cvRound (IZR (rows m) * fy))
    else dsize in
  if ((fst d =? cols m) && (snd d =? rows m))%Z then m
  else mkMat (snd d) (fst d) (channels m) (depth m)
             (fun y j =>
                at_ m (y * rows m / snd d)
                      ((j / channels m) * cols m / fst d * channels m
                       + j mod channels m)%Z).

Definition edgeDoG (g : Mat) : Mat :=
  mkMat (rows g) (cols g) 1 CV_32F (fun _ _ => 1).

Definition calcVectorField (g : Mat) (k : Z) : Mat :=
  mkMat (rows g) (cols g) 1 CV_32F (fun _ _ => 0).

Definition uniformNoise (noise gray : Mat) (k : Z) (g : nat) : Mat * nat :=
  (mkMat (rows noise) (cols noise) (channels noise) (depth noise)
         (fun y x => if Z.even (x + y) then 1 else 0), g).

Definition env : Env :=
  mkEnv gauss nat (fun g => g) randInt distanceTransform bilateralFilter
        cvtColor resize edgeDoG calcVectorField uniformNoise.

(** A single-channel float image with the same value in every cell. *)
Definition flat (h w : Z) (v : R) : Mat := mkMat h w 1 CV_32F (fun _ _ => v).

Definition init : RandState env := mkRand (0%nat : Gen env) 0.

(** A noise field of one row and 20 columns: 1 in the columns 0 to 7,
    0 in the others. *)
Definition near_noise : Mat :=
  mkMat 1 20 1 CV_32F (fun _ x => if (x <=? 7)%Z then 1 else 0).

End Demo.

(** ** Auxiliary definitions for the proofs *)

(** A loop body that writes [f p v] over the value [v] of pixel [p] when
    [b p] holds. *)
Definition cond_set (b : Z * Z -> bool) (f : Z * Z -> R -> R)
    (m : Mat) (p : Z * Z) : Mat :=
  if b p then mat_set m (fst p) (snd p) (f p (at_ m (fst p) (snd p)))
  else m.

(** The test of the second loop nest of [quantizeOrientation]. *)
Definition far_from_edge (threshold : R) (distmap : Mat) (p : Z * Z) : bool :=
  Rltb threshold (at_ distmap (fst p) (snd p)).

(** The threshold of [quantizeOrientation] for a flow field [vf]. *)
Definition edge_threshold (vf : Mat) : R :=
  IZR (Z.max (cols vf) (rows vf)) / 50.

(** Body of the loop nest of [LIConv], by pixel of the scan order. *)
Definition scan_step (E : Env) (B etf noise : Mat) (width height dim : Z)
    (ratio : R) (a : Mat * RandState E) (p : Z * Z) : Mat * RandState E :=
  LIConv_pixel E B etf noise width height dim (fst p) (snd p) ratio a.

(** The scan of [LIConv] over a list of pixels. *)
Definition scan_pixels (E : Env) (B etf noise : Mat) (width height dim : Z)
    (ratio : R) (ks : list (Z * Z)) (a : Mat * RandState E)
  : Mat * RandState E :=
  fold_left (scan_step E B etf noise width height dim ratio) ks a.

(** The value of the binary mask for a converted edge value. *)
Definition mask_value (v : R) : R := if Rltb v 192 then 0 else 1.

(** A store holding a one-pixel flow field (angle 0) and a one-pixel edge
    map of full strength. *)
Definition one_pixel_store : Store :=
  store_set (store_set (fun _ => Mat_zeros 0 0 CV_8U 1)
                       l_vfield (Demo.flat 1 1 0))
            l_edge (Demo.flat 1 1 1).

(** The pixel in which an anchor point lies: its coordinates rounded
    down, as a (row, column) pair. *)
Definition anchor_pixel (p : Point2f) : Z * Z :=
  (Zfloor (pt_y p), Zfloor (pt_x p)).

(** Body of the stamping loop of [pencilDrawing], by anchor point. *)
Definition stamp (r : R) (a : Mat * R) (p : Point2f) : Mat * R :=
  (rectangle (fst a) (trunc (pt_x p)) (trunc (pt_y p)) 1 1 1, r).

(** ** showProgress and the progress report of LIConv *)

(** What [printf] has written: a number under a format, or a literal
    string. *)
Inductive printed : Type :=
| Pfloat (format : String.string) (v : R)
| Pstr (s : String.string).

(** The strings with one carriage return after a bracket, and with one
    line feed. *)
Definition bracket_cr : String.string :=
  String.String (Ascii.ascii_of_nat 93)
    (String.String (Ascii.ascii_of_nat 13) String.EmptyString).

Definition line_feed : String.string :=
  String.String (Ascii.ascii_of_nat 10) String.EmptyString.

(** [showProgress(current, total)], by what it prints. *)
Definition showProgress (current total : Z) : list printed :=
  let percent := IZR current / IZR total in
  let n_prog := trunc (30 * percent) in
  [Pfloat " %5.1f ["%string (100 * percent)]
  ++ map (fun i =>
            if (i =? n_prog)%Z then Pstr ">"%string
            else if (i <? n_prog)%Z then Pstr "="%string
            else Pstr " "%string)
         (zrange 1 31)
  ++ [Pstr bracket_cr]
  ++ (if (current =? total)%Z then [Pstr line_feed] else []).

(** The arguments of the calls of [showProgress] that a run of [LIConv]
    makes, one per row: [progress += width * dim] and [totalStep]. *)
Definition LIConv_progress (img : Mat) : list (Z * Z) :=
  let width := cols img in
  let height := rows img in
  let dim := channels img in
  let totalStep := int_mul (int_mul dim height) width in
  snd (fold_left
         (fun (a : Z * list (Z * Z)) (y : Z) =>
            let progress := wrap32 (fst a + int_mul width dim) in
            (progress, snd a ++ [(progress, totalStep)]))
         (zrange 0 height) (0%Z, [])).

(** What a run of [LIConv] prints. *)
Definition LIConv_printed (img : Mat) : list printed :=
  flat_map (fun c => showProgress (fst c) (snd c)) (LIConv_progress img).

(** The run of [LIConv] in the concrete environment on an image of one
    row and 20 columns with tone 1/2, flow angle 0, the noise field
    [noise] and [ratio = 0.3]. *)
Definition demo_wide_run (noise : Mat) : Mat * RandState Demo.env :=
  scan_pixels Demo.env (Demo.flat 1 20 (1 / 2)) (Demo.flat 1 20 0) noise
    20 1 1 0.3 (grid 1 20)
    (Mat_zeros 1 20 CV_32F 1, rand_getRNG Demo.env Demo.init).

(** Whether a printed item is the line feed. *)
Definition is_line_feed (p : printed) : bool :=
  match p with
  | Pstr s => String.eqb s line_feed
  | Pfloat _ _ => false
  end.

(** The pixel on which an anchor point is stamped: its coordinates
    converted to [int], as a (row, column) pair. *)
Definition stamped_pixel (p : Point2f) : Z * Z :=
  (trunc (pt_y p), trunc (pt_x p)).

(** The image of level [l] of [pencilDrawingLOD]. *)
Definition level_image (E : Env) (img : Mat) (l : Z) : Mat :=
  resize E img (0, 0)%Z (1 / powerRZ 2 (l - 1)) (1 / powerRZ 2 (l - 1))
         INTER_CUBIC.

(** The run of [LIConv] in the concrete environment on an image of one
    row and two columns with tone [v], flow angle 0, noise [nu] and
    [ratio = 0.3]. *)
Definition demo_run (v nu : R) : Mat * RandState Demo.env :=
  scan_pixels Demo.env (Demo.flat 1 2 v) (Demo.flat 1 2 0) (Demo.flat 1 2 nu)
    2 1 1 0.3 (grid 1 2)
    (Mat_zeros 1 2 CV_32F 1, rand_getRNG Demo.env Demo.init).

(** * Properties *)

(** ** Index ranges *)

Lemma in_zrange (lo hi i : Z) : In i (zrange lo hi) <-> (lo <= i < hi)%Z.
Proof.
  unfold zrange. rewrite in_map_iff. split.
  - intros [k [Hk Hin]]. apply in_seq in Hin. lia.
  - intros H. exists (Z.to_nat (i - lo)). split; [lia|].
    apply in_seq. lia.
Qed.

Lemma NoDup_zrange (lo hi : Z) : NoDup (zrange lo hi).
Proof.
  unfold zrange. apply Finite.Injective_map_NoDup.
  - intros a b H. lia.
  - apply seq_NoDup.
Qed.

Lemma zrange_length (lo hi : Z) : length (zrange lo hi) = Z.to_nat (hi - lo).
Proof. unfold zrange. now rewrite length_map, length_seq. Qed.

Lemma zrange_nil (lo hi : Z) : (hi <= lo)%Z -> zrange lo hi = [].
Proof.
  intros H. unfold zrange. replace (Z.to_nat (hi - lo)) with 0%nat by lia.
  reflexivity.
Qed.

Lemma zrange_cons (lo hi : Z) :
  (lo < hi)%Z -> zrange lo hi = lo :: zrange (lo + 1) hi.
Proof.
  intros H. unfold zrange.
  replace (Z.to_nat (hi - lo)) with (S (Z.to_nat (hi - (lo + 1)))) by lia.
  cbn [seq map]. f_equal; [lia|].
  rewrite <- seq_shift, map_map. apply map_ext. intros a. lia.
Qed.

Lemma zrange_app (lo m hi : Z) :
  (lo <= m <= hi)%Z -> zrange lo hi = zrange lo m ++ zrange m hi.
Proof.
  intros H. unfold zrange.
  replace (Z.to_nat (hi - lo))
    with (Z.to_nat (m - lo) + Z.to_nat (hi - m))%nat by lia.
  rewrite seq_app, map_app. f_equal. cbn [plus].
  rewrite <- (Nat.add_0_r (Z.to_nat (m - lo))) at 1.
  rewrite Nat.add_comm.
  generalize (Z.to_nat (hi - m)) as k. intros k.
  replace (seq (0 + Z.to_nat (m - lo)) k)
    with (map (fun i => (i + Z.to_nat (m - lo))%nat) (seq 0 k)).
  - rewrite map_map. apply map_ext. intros a. lia.
  - clear. generalize 0%nat as a. induction k; intros a; cbn; [reflexivity|].
    f_equal. apply IHk.
Qed.

Lemma zrange_snoc (lo hi : Z) :
  (lo <= hi)%Z -> zrange lo (hi + 1) = zrange lo hi ++ [hi].
Proof.
  intros H. rewrite (zrange_app lo hi (hi + 1)) by lia. f_equal.
  rewrite zrange_cons by lia. now rewrite zrange_nil by lia.
Qed.

(** ** The scan order *)

Lemma for_pixels_grid {A : Type} (h w : Z) (body : A -> Z -> Z -> A) (a : A) :
  for_pixels h w body a
  = fold_left (fun a p => body a (fst p) (snd p)) (grid h w) a.
Proof.
  unfold for_pixels, grid. generalize (zrange 0 h) as ys. intros ys. revert a.
  induction ys as [|y ys IH]; intros a; cbn [fold_left flat_map];
    [reflexivity|].
  rewrite fold_left_app, IH. f_equal.
  generalize (zrange 0 w) as xs. intros xs. revert a.
  induction xs as [|x0 xs IHx]; intros a; cbn; [reflexivity|]. apply IHx.
Qed.

Lemma in_grid (h w y x : Z) :
  In (y, x) (grid h w) <-> (0 <= y < h)%Z /\ (0 <= x < w)%Z.
Proof.
  unfold grid. rewrite in_flat_map. split.
  - intros [y' [Hy Hin]]. apply in_map_iff in Hin as [x' [Heq Hx]].
    inversion Heq; subst. apply in_zrange in Hy, Hx. lia.
  - intros [Hy Hx]. exists y. split; [now apply in_zrange|].
    apply in_map_iff. exists x. split; [reflexivity|now apply in_zrange].
Qed.

Lemma NoDup_row (y : Z) (xs : list Z) :
  NoDup xs -> NoDup (map (fun x => (y, x)) xs).
Proof.
  intros H. apply Finite.Injective_map_NoDup; [|exact H].
  intros a b Heq. now inversion Heq.
Qed.

Lemma NoDup_grid (h w : Z) : NoDup (grid h w).
Proof.
  unfold grid. pose proof (NoDup_zrange 0 h) as Hys. revert Hys.
  generalize (zrange 0 h) as ys.
  induction ys as [|y ys IH]; intros Hys; cbn [flat_map]; [constructor|].
  inversion Hys as [|? ? Hnin Hnd]; subst.
  apply NoDup_app.
  - apply NoDup_row, NoDup_zrange.
  - now apply IH.
  - intros [y' x'] Hin1 Hin2. apply in_map_iff in Hin1 as [x0 [Heq _]].
    inversion Heq; subst. apply in_flat_map in Hin2 as [y0 [Hy0 Hin2]].
    apply in_map_iff in Hin2 as [x1 [Heq1 _]]. inversion Heq1; subst.
    contradiction.
Qed.

Lemma grid_length (h w : Z) :
  length (grid h w) = (Z.to_nat h * Z.to_nat w)%nat.
Proof.
  unfold grid. rewrite <- (Z.sub_0_r h) at 2. rewrite <- zrange_length.
  generalize (zrange 0 h) as ys.
  induction ys as [|y ys IH]; cbn [flat_map length]; [reflexivity|].
  rewrite length_app, IH, length_map, zrange_length.
  rewrite Z.sub_0_r. lia.
Qed.

(** Position of a pixel in the scan order [y * w + x]. *)
Lemma grid_split (h w y x : Z) :
  (0 <= y < h)%Z -> (0 <= x < w)%Z ->
  exists pre post,
    grid h w = pre ++ (y, x) :: post
    /\ length pre = Z.to_nat (y * w + x)
    /\ ~ In (y, x) post.
Proof.
  intros Hy Hx.
  set (row := fun y0 : Z => map (fun x0 : Z => (y0, x0)) (zrange 0 w)).
  exists (flat_map row (zrange 0 y) ++ map (fun x0 => (y, x0)) (zrange 0 x)).
  exists (map (fun x0 => (y, x0)) (zrange (x + 1) w)
          ++ flat_map row (zrange (y + 1) h)).
  assert (Hg : grid h w =
    (flat_map row (zrange 0 y) ++ map (fun x0 => (y, x0)) (zrange 0 x))
    ++ (y, x) :: map (fun x0 => (y, x0)) (zrange (x + 1) w)
    ++ flat_map row (zrange (y + 1) h)).
  { unfold grid. fold row.
    rewrite (zrange_app 0 y h) by lia. rewrite flat_map_app.
    rewrite (zrange_cons y h) by lia. cbn [flat_map].
    rewrite <- app_assoc. f_equal.
    assert (Hr : row y = map (fun x0 : Z => (y, x0)) (zrange 0 x)
                 ++ (y, x) :: map (fun x0 : Z => (y, x0)) (zrange (x + 1) w)).
    { unfold row. rewrite (zrange_app 0 x w) by lia. rewrite map_app.
      rewrite (zrange_cons x w) by lia. reflexivity. }
    rewrite Hr, <- app_assoc. reflexivity. }
  split; [exact Hg|]. split.
  - rewrite length_app, length_map, zrange_length.
    pose proof (grid_length y w) as Hl. unfold grid in Hl. fold row in Hl.
    rewrite Hl. rewrite Z.sub_0_r. nia.
  - pose proof (NoDup_grid h w) as Hnd. rewrite Hg in Hnd.
    apply NoDup_remove_2 in Hnd. intros Hin. apply Hnd.
    apply in_or_app. now right.
Qed.

(** ** Conversions to integers *)

Lemma trunc_IZR (z : Z) : trunc (IZR z) = z.
Proof.
  unfold trunc. destruct (Rle_dec 0 (IZR z)).
  - apply ZfloorZ.
  - apply Zceil_eq. lra.
Qed.

Lemma trunc_nonneg (r : R) : 0 <= r -> trunc r = Zfloor r.
Proof. intros H. unfold trunc. now destruct (Rle_dec 0 r). Qed.

Lemma Zfloor_nonneg_inv (r : R) : (0 <= Zfloor r)%Z -> 0 <= r.
Proof.
  intros H. pose proof (Zfloor_bound r) as [Hb _].
  apply IZR_le in H. lra.
Qed.

Lemma cvRound_IZR (z : Z) : cvRound (IZR z) = z.
Proof.
  unfold cvRound. rewrite ZfloorZ.
  destruct (Rlt_dec (IZR z - IZR z) (1 / 2)); [reflexivity|]. lra.
Qed.

Lemma wrap32_small (z : Z) :
  (- 2147483648 <= z < 2147483648)%Z -> wrap32 z = z.
Proof.
  intros H. unfold wrap32. rewrite Z.mod_small by lia. lia.
Qed.

Lemma Rltb_true (a b : R) : a < b -> Rltb a b = true.
Proof. intros H. unfold Rltb. now destruct (Rlt_dec a b). Qed.

Lemma Rltb_false (a b : R) : b <= a -> Rltb a b = false.
Proof. intros H. unfold Rltb. destruct (Rlt_dec a b); [lra|reflexivity]. Qed.

Lemma Reqb_true_iff (a b : R) : Reqb a b = true <-> a = b.
Proof. unfold Reqb. destruct (Req_dec_T a b); split; congruence. Qed.


(** ** Loops that rewrite a matrix cell by cell *)

Lemma mat_set_at (m : Mat) (y j : Z) (v : R) (y' j' : Z) :
  at_ (mat_set m y j v) y' j'
  = if ((y' =? y) && (j' =? j))%Z then v else at_ m y' j'.
Proof. reflexivity. Qed.

Lemma mat_set_same (m : Mat) (y j : Z) (v : R) :
  at_ (mat_set m y j v) y j = v.
Proof. rewrite mat_set_at. now rewrite !Z.eqb_refl. Qed.

Lemma mat_set_other (m : Mat) (y j : Z) (v : R) (y' j' : Z) :
  (y', j') <> (y, j) -> at_ (mat_set m y j v) y' j' = at_ m y' j'.
Proof.
  intros H. rewrite mat_set_at.
  destruct (Z.eqb_spec y' y), (Z.eqb_spec j' j); cbn; try reflexivity.
  subst. contradiction.
Qed.

Lemma cond_set_extent b f m p :
  rows (cond_set b f m p) = rows m /\ cols (cond_set b f m p) = cols m
  /\ channels (cond_set b f m p) = channels m
  /\ depth (cond_set b f m p) = depth m.
Proof. unfold cond_set. destruct (b p); cbn; auto. Qed.

Lemma cond_set_loop b f (ks : list (Z * Z)) :
  NoDup ks ->
  forall m,
    let m' := fold_left (cond_set b f) ks m in
    (rows m' = rows m /\ cols m' = cols m
     /\ channels m' = channels m /\ depth m' = depth m)
    /\ forall p,
        (In p ks -> b p = true ->
         at_ m' (fst p) (snd p) = f p (at_ m (fst p) (snd p)))
        /\ (~ In p ks \/ b p = false ->
            at_ m' (fst p) (snd p) = at_ m (fst p) (snd p)).
Proof.
  induction 1 as [|k ks Hnin Hnd IH]; intros m; cbn [fold_left].
  - cbn. split; [auto|]. intros p. split; [contradiction|reflexivity].
  - specialize (IH (cond_set b f m k)). cbv zeta in IH.
    destruct IH as [Hext Hat].
    destruct (cond_set_extent b f m k) as (Hr & Hc & Hch & Hd).
    split.
    { destruct Hext as (H1 & H2 & H3 & H4). repeat split; congruence. }
    intros p. destruct (Hat p) as [Hin Hout]. split.
    + intros [Heq | Hp] Hb.
      * subst k. rewrite Hout by (left; exact Hnin).
        unfold cond_set. rewrite Hb. apply mat_set_same.
      * rewrite (Hin Hp Hb). f_equal.
        unfold cond_set. destruct (b k); [|reflexivity].
        apply mat_set_other. intros Heq. apply Hnin.
        destruct p, k; cbn in *. inversion Heq; subst. exact Hp.
    + intros Hcase. rewrite Hout.
      * unfold cond_set. destruct (b k) eqn:Hbk; [|reflexivity].
        apply mat_set_other. intros Heq.
        assert (p = k) by (destruct p, k; cbn in *; congruence). subst p.
        destruct Hcase as [Hn | Hf]; [apply Hn; now left|congruence].
      * destruct Hcase as [Hn | Hf]; [left|now right].
        intros Hp. apply Hn. now right.
Qed.

(** ** quantizeOrientation *)

Lemma binarize_at (h w : Z) (u : Mat) :
  (rows (binarize h w u) = rows u /\ cols (binarize h w u) = cols u)
  /\ forall y x, (0 <= y < h)%Z -> (0 <= x < w)%Z ->
       at_ (binarize h w u) y x = mask_value (at_ u y x).
Proof.
  unfold binarize. rewrite for_pixels_grid.
  assert (Hstep : forall ks m,
    fold_left (fun (a : Mat) (p : Z * Z) =>
       if Rltb (at_ a (fst p) (snd p)) 192
       then mat_set a (fst p) (snd p) 0 else mat_set a (fst p) (snd p) 1) ks m
    = fold_left (cond_set (fun _ => true) (fun _ v => mask_value v)) ks m).
  { induction ks as [|k ks IH]; intros m; cbn [fold_left]; [reflexivity|].
    rewrite IH. f_equal. unfold cond_set, mask_value.
    now destruct (Rltb (at_ m (fst k) (snd k)) 192). }
  rewrite Hstep.
  destruct (cond_set_loop (fun _ => true) (fun _ v => mask_value v)
              (grid h w) (NoDup_grid h w) u) as [Hext Hat].
  split; [tauto|]. intros y x Hy Hx.
  destruct (Hat (y, x)) as [Hin _]. apply Hin; [|reflexivity].
  now apply in_grid.
Qed.

Section Quantize.

Variable E : Env.
Variables (vfield edge : loc) (st : Store).

(** The second loop nest only ever writes the matrix at [vfield]. *)
Lemma quantize_store_loop (threshold : R) (distmap : Mat)
    (ks : list (Z * Z)) :
  forall (s : Store) (l : loc),
    fold_left
      (fun (a : Store) (p : Z * Z) =>
         if Rltb threshold (at_ distmap (fst p) (snd p)) then
           store_set a vfield
             (mat_set (a vfield) (fst p) (snd p)
                      (snap (at_ (a vfield) (fst p) (snd p))))
         else a) ks s l
    = if Nat.eqb l vfield
      then fold_left (cond_set (far_from_edge threshold distmap)
                               (fun _ v => snap v)) ks (s vfield)
      else s l.
Proof.
  induction ks as [|k ks IH]; intros s l; cbn [fold_left].
  - destruct (Nat.eqb_spec l vfield); [now subst|reflexivity].
  - rewrite IH. destruct (Nat.eqb_spec l vfield) as [Heq | Hne].
    + f_equal. unfold cond_set, far_from_edge.
      destruct (Rltb threshold (at_ distmap (fst k) (snd k)));
        [|reflexivity].
      unfold store_set. now rewrite Nat.eqb_refl.
    + destruct (Rltb threshold (at_ distmap (fst k) (snd k)));
        [|reflexivity].
      unfold store_set. destruct (Nat.eqb_spec l vfield);
        [contradiction|reflexivity].
Qed.

Lemma quantizeOrientation_store (l : loc) :
  quantizeOrientation E vfield edge st l
  = if Nat.eqb l vfield
    then fold_left
           (cond_set
              (far_from_edge (edge_threshold (st vfield))
                 (edge_distance E (rows (st vfield)) (cols (st vfield))
                                (st edge)))
              (fun _ v => snap v))
           (grid (rows (st vfield)) (cols (st vfield))) (st vfield)
    else st l.
Proof.
  unfold quantizeOrientation. rewrite for_pixels_grid.
  apply quantize_store_loop.
Qed.

Lemma quantizeOrientation_extent :
  rows (quantizeOrientation E vfield edge st vfield) = rows (st vfield)
  /\ cols (quantizeOrientation E vfield edge st vfield) = cols (st vfield)
  /\ channels (quantizeOrientation E vfield edge st vfield)
     = channels (st vfield)
  /\ depth (quantizeOrientation E vfield edge st vfield) = depth (st vfield).
Proof.
  rewrite quantizeOrientation_store, Nat.eqb_refl.
  apply (cond_set_loop _ _ _
           (NoDup_grid (rows (st vfield)) (cols (st vfield))) (st vfield)).
Qed.

Lemma quantizeOrientation_at (y x : Z) :
  (0 <= y < rows (st vfield))%Z -> (0 <= x < cols (st vfield))%Z ->
  at_ (quantizeOrientation E vfield edge st vfield) y x
  = if Rltb (edge_threshold (st vfield))
            (at_ (edge_distance E (rows (st vfield)) (cols (st vfield))
                                (st edge)) y x)
    then snap (at_ (st vfield) y x) else at_ (st vfield) y x.
Proof.
  intros Hy Hx. rewrite quantizeOrientation_store, Nat.eqb_refl.
  destruct (cond_set_loop
              (far_from_edge (edge_threshold (st vfield))
                 (edge_distance E (rows (st vfield)) (cols (st vfield))
                                (st edge)))
              (fun _ v => snap v) _
              (NoDup_grid (rows (st vfield)) (cols (st vfield))) (st vfield))
    as [_ Hat].
  destruct (Hat (y, x)) as [Hin Hout]. unfold far_from_edge in Hin, Hout.
  cbn [fst snd] in Hin, Hout.
  destruct (Rltb (edge_threshold (st vfield)) _) eqn:Hfar.
  - apply Hin; [now apply in_grid|reflexivity].
  - apply Hout. now right.
Qed.

End Quantize.

Lemma snap_eq (theta : R) : snap theta = IZR (Zceil (theta / PI)) * PI - PI / 4.
Proof. unfold snap. cbv zeta. lra. Qed.

(** C4. After [quantizeOrientation], a pixel whose distance to the nearest
    zero pixel of the binarised edge mask exceeds [max(width, height) / 50]
    holds [ceil(theta / pi) * pi - pi / 4], where [theta] was its angle;
    every other pixel keeps its angle. *)
Theorem quantizeOrientation_far_near (E : Env) (vfield edge : loc)
    (st : Store) (y x : Z) :
  rows (st edge) = rows (st vfield) ->
  cols (st edge) = cols (st vfield) ->
  (0 <= y < rows (st vfield))%Z ->
  (0 <= x < cols (st vfield))%Z ->
  let width := cols (st vfield) in
  let height := rows (st vfield) in
  let d := at_ (edge_distance E height width (st edge)) y x in
  let theta := at_ (st vfield) y x in
  let theta' := at_ (quantizeOrientation E vfield edge st vfield) y x in
  (IZR (Z.max width height) / 50 < d ->
   theta' = IZR (Zceil (theta / PI)) * PI - PI / 4)
  /\ (d <= IZR (Z.max width height) / 50 -> theta' = theta).
Proof.
  intros _ _ Hy Hx width height d theta theta'.
  unfold theta'. rewrite quantizeOrientation_at by assumption.
  unfold edge_threshold. fold width height d theta. split; intros H.
  - rewrite Rltb_true by exact H. apply snap_eq.
  - now rewrite Rltb_false by exact H.
Qed.

(** C10. [quantizeOrientation] writes through its flow-field parameter
    only: the edge matrix, a matrix other than the flow field, is the same
    after the call, and so is every other matrix of the store. *)
Theorem quantizeOrientation_edge_unchanged (E : Env) (vfield edge : loc)
    (st : Store) :
  edge <> vfield ->
  quantizeOrientation E vfield edge st edge = st edge
  /\ forall l, l <> vfield -> quantizeOrientation E vfield edge st l = st l.
Proof.
  intros Hne.
  assert (H : forall l, l <> vfield ->
                        quantizeOrientation E vfield edge st l = st l).
  { intros l Hl. rewrite quantizeOrientation_store.
    destruct (Nat.eqb_spec l vfield); [contradiction|reflexivity]. }
  split; [now apply H|exact H].
Qed.


Lemma cvRound_below (r : R) : r < 191.25 -> (cvRound r < 192)%Z.
Proof.
  intros H. unfold cvRound. cbv zeta.
  pose proof (Zfloor_bound r) as [Hl Hu].
  assert (Hf : (Zfloor r < 192)%Z) by (apply lt_IZR; lra).
  destruct (Rlt_dec (r - IZR (Zfloor r)) (1 / 2)) as [Hd | Hd]; [exact Hf|].
  assert (Hf' : (Zfloor r < 191)%Z) by (apply lt_IZR; lra).
  destruct (Rlt_dec (1 / 2) (r - IZR (Zfloor r))); [lia|].
  destruct (Z.even (Zfloor r)); lia.
Qed.

Lemma mask_value_below (v : R) :
  v < 3 / 4 -> mask_value (IZR (saturate_uchar (cvRound (255 * v)))) = 0.
Proof.
  intros H. unfold mask_value. rewrite Rltb_true; [reflexivity|].
  apply IZR_lt. assert (cvRound (255 * v) < 192)%Z
    by (apply cvRound_below; lra).
  unfold saturate_uchar. lia.
Qed.

Lemma mask_value_full :
  mask_value (IZR (saturate_uchar (cvRound (255 * 1)))) = 1.
Proof.
  rewrite Rmult_1_r, cvRound_IZR. unfold mask_value.
  rewrite Rltb_false; [reflexivity|].
  change (saturate_uchar 255) with 255%Z. lra.
Qed.

Lemma Reqb_false (a b : R) : a <> b -> Reqb a b = false.
Proof. intros H. unfold Reqb. now destruct (Req_dec_T a b). Qed.

Lemma snap_0 : snap 0 = - PI / 4.
Proof.
  rewrite snap_eq. replace (0 / PI) with 0 by (unfold Rdiv; ring).
  rewrite (Zceil_eq 0 0) by lra. lra.
Qed.

(** On the one-pixel store the mask has no zero pixel, the distance is
    the initial value of the transform, and the angle is rewritten. *)
Lemma one_pixel_quantized :
  at_ (quantizeOrientation Demo.env l_vfield l_edge one_pixel_store l_vfield)
      0 0 = - PI / 4.
Proof.
  rewrite quantizeOrientation_at by (cbn; lia).
  change (one_pixel_store l_vfield) with (Demo.flat 1 1 0).
  change (one_pixel_store l_edge) with (Demo.flat 1 1 1).
  change (cols (Demo.flat 1 1 0)) with 1%Z.
  change (rows (Demo.flat 1 1 0)) with 1%Z.
  destruct (binarize_at 1 1 (convertTo_uchar (Demo.flat 1 1 1) 255))
    as [[Hr Hc] Hat].
  assert (Hd : at_ (edge_distance Demo.env 1 1 (Demo.flat 1 1 1)) 0 0 = 8192).
  { unfold edge_distance. cbn [distanceTransform Demo.env].
    unfold Demo.distanceTransform. cbn [at_].
    rewrite Hr, Hc. change (grid (rows _) (cols _)) with [(0, 0)%Z].
    cbn [filter fst snd]. rewrite Hat by lia.
    change (at_ (convertTo_uchar (Demo.flat 1 1 1) 255) 0 0)
      with (IZR (saturate_uchar (cvRound (255 * 1)))).
    rewrite mask_value_full, Reqb_false by lra. reflexivity. }
  rewrite Hd, Rltb_true.
  - change (at_ (Demo.flat 1 1 0) 0 0) with 0. apply snap_0.
  - unfold edge_threshold. change (Z.max _ _) with 1%Z. lra.
Qed.

(** C8, refuted as stated: with an edge map of full strength the single
    pixel of a one-pixel flow field does not keep its angle. *)
Lemma full_strength_counterexample :
  (forall y x, at_ (one_pixel_store l_edge) y x = 1)
  /\ at_ (quantizeOrientation Demo.env l_vfield l_edge one_pixel_store
                              l_vfield) 0 0
     <> at_ (one_pixel_store l_vfield) 0 0.
Proof.
  split; [reflexivity|]. rewrite one_pixel_quantized.
  change (at_ (one_pixel_store l_vfield) 0 0) with 0.
  pose proof PI_RGT_0. lra.
Qed.

Lemma chamfer_nonneg (dy dx : Z) : 0 <= Demo.chamfer dy dx.
Proof.
  unfold Demo.chamfer.
  apply Rplus_le_le_0_compat; apply Rmult_le_pos; try lra; apply IZR_le; lia.
Qed.

(** The distance transform of the concrete environment gives the zero
    pixels of its argument the distance 0. *)
Lemma Demo_distance_zero (m : Mat) (y x : Z) :
  (0 <= y < rows m)%Z -> (0 <= x < cols m)%Z -> at_ m y x = 0 ->
  at_ (distanceTransform Demo.env m) y x = 0.
Proof.
  intros Hy Hx Hz. cbn [distanceTransform Demo.env].
  unfold Demo.distanceTransform. cbn [at_].
  assert (Hin : In (y, x) (filter (fun p => Reqb (at_ m (fst p) (snd p)) 0)
                                  (grid (rows m) (cols m)))).
  { apply filter_In. split; [now apply in_grid|]. now apply Reqb_true_iff. }
  revert Hin. generalize (filter (fun p => Reqb (at_ m (fst p) (snd p)) 0)
                                 (grid (rows m) (cols m))).
  assert (Hnn : forall l : list (Z * Z), 0 <=
    fold_right (fun q d => Rmin (Demo.chamfer (y - fst q) (x - snd q)) d)
               8192 l).
  { induction l as [|q l IH]; cbn [fold_right]; [lra|].
    apply Rmin_glb; [apply chamfer_nonneg|exact IH]. }
  induction l as [|q l IH]; cbn [fold_right In]; [contradiction|].
  intros [Heq | Hin].
  - subst q. cbn [fst snd]. rewrite !Z.sub_diag.
    unfold Demo.chamfer. cbn [Z.abs Z.sub Z.min Z.opp Z.add Z.compare].
    rewrite !Rmult_0_r, Rplus_0_r. apply Rmin_left. apply Hnn.
  - rewrite (IH Hin). apply Rmin_right. apply chamfer_nonneg.
Qed.

(** C8, amended. If the distance transform gives the zero pixels of the
    mask the distance 0 and the edge strength is below 0.75 at every pixel
    (in particular where it is 0 everywhere), [quantizeOrientation] leaves
    the angle of every pixel unchanged. *)
Theorem quantizeOrientation_below_threshold_unchanged (E : Env)
    (vfield edge : loc) (st : Store) :
  (forall m y x, (0 <= y < rows m)%Z -> (0 <= x < cols m)%Z ->
                 at_ m y x = 0 -> at_ (distanceTransform E m) y x = 0) ->
  rows (st edge) = rows (st vfield) ->
  cols (st edge) = cols (st vfield) ->
  (forall y x, (0 <= y < rows (st edge))%Z -> (0 <= x < cols (st edge))%Z ->
               at_ (st edge) y x < 3 / 4) ->
  forall y x, (0 <= y < rows (st vfield))%Z -> (0 <= x < cols (st vfield))%Z ->
    at_ (quantizeOrientation E vfield edge st vfield) y x
    = at_ (st vfield) y x.
Proof.
  intros Hdt Hrows Hcols Hlow y x Hy Hx.
  rewrite quantizeOrientation_at by assumption.
  destruct (binarize_at (rows (st vfield)) (cols (st vfield))
              (convertTo_uchar (st edge) 255)) as [[Hr Hc] Hat].
  cbn [rows cols convertTo_uchar] in Hr, Hc.
  unfold edge_distance. rewrite Hdt.
  - rewrite Rltb_false; [reflexivity|]. unfold edge_threshold.
    apply Rmult_le_pos; [apply IZR_le; lia|lra].
  - rewrite Hr. lia.
  - rewrite Hc. lia.
  - rewrite Hat by assumption. cbn [at_ convertTo_uchar].
    apply mask_value_below. apply Hlow; lia.
Qed.

Lemma quantizeOrientation_below_threshold_unchanged_witness :
  at_ (quantizeOrientation Demo.env l_vfield l_edge
         (store_set one_pixel_store l_edge (Demo.flat 1 1 0)) l_vfield) 0 0
  = 0.
Proof.
  apply (quantizeOrientation_below_threshold_unchanged Demo.env
           l_vfield l_edge
           (store_set one_pixel_store l_edge (Demo.flat 1 1 0))).
  - exact Demo_distance_zero.
  - reflexivity.
  - reflexivity.
  - intros y x _ _. cbn. lra.
  - cbn. lia.
  - cbn. lia.
Defined.

Lemma quantizeOrientation_far_near_witness :
  (IZR (Z.max 1 1) / 50 < at_ (edge_distance Demo.env 1 1
                                 (one_pixel_store l_edge)) 0 0 ->
   at_ (quantizeOrientation Demo.env l_vfield l_edge one_pixel_store
          l_vfield) 0 0
   = IZR (Zceil (at_ (one_pixel_store l_vfield) 0 0 / PI)) * PI - PI / 4)
  /\ (at_ (edge_distance Demo.env 1 1 (one_pixel_store l_edge)) 0 0
      <= IZR (Z.max 1 1) / 50 ->
      at_ (quantizeOrientation Demo.env l_vfield l_edge one_pixel_store
             l_vfield) 0 0
      = at_ (one_pixel_store l_vfield) 0 0).
Proof.
  apply (quantizeOrientation_far_near Demo.env l_vfield l_edge
           one_pixel_store 0 0).
  - reflexivity.
  - reflexivity.
  - cbn. lia.
  - cbn. lia.
Defined.

Lemma quantizeOrientation_edge_unchanged_witness :
  quantizeOrientation Demo.env l_vfield l_edge one_pixel_store l_edge
  = one_pixel_store l_edge
  /\ forall l, l <> l_vfield ->
       quantizeOrientation Demo.env l_vfield l_edge one_pixel_store l
       = one_pixel_store l.
Proof.
  apply (quantizeOrientation_edge_unchanged Demo.env l_vfield l_edge
           one_pixel_store).
  discriminate.
Defined.


(** ** Sums and accumulation loops *)

Lemma Rsum_cons (a : R) (l : list R) : Rsum (a :: l) = a + Rsum l.
Proof. reflexivity. Qed.

Lemma Rsum_filter {K : Type} (P : K -> bool) (f : K -> R) (ks : list K) :
  Rsum (map (fun k => if P k then f k else 0) ks)
  = Rsum (map f (filter P ks)).
Proof.
  induction ks as [|k ks IH]; cbn [map filter]; [reflexivity|].
  rewrite Rsum_cons, IH. destruct (P k); cbn [map]; [reflexivity|].
  apply Rplus_0_l.
Qed.

Lemma map_filter_map {K L M : Type} (g : K -> L) (P : L -> bool) (f : L -> M)
    (ks : list K) :
  map f (filter P (map g ks))
  = map (fun k => f (g k)) (filter (fun k => P (g k)) ks).
Proof.
  induction ks as [|k ks IH]; cbn [map filter]; [reflexivity|].
  destruct (P (g k)); cbn [map]; now rewrite IH.
Qed.

Lemma Rsum_pos (l : list R) :
  l <> [] -> (forall a, In a l -> 0 < a) -> 0 < Rsum l.
Proof.
  induction l as [|a l IH]; intros Hne Hpos; [congruence|].
  rewrite Rsum_cons. destruct l as [|b l].
  - cbn. rewrite Rplus_0_r. apply Hpos. now left.
  - apply Rplus_lt_0_compat; [apply Hpos; now left|].
    apply IH; [discriminate|]. intros c Hc. apply Hpos. now right.
Qed.

Lemma vset_same (v : vec) (c : Z) (a : R) : vset v c a c = a.
Proof. unfold vset. now rewrite Z.eqb_refl. Qed.

Lemma vset_other (v : vec) (c c' : Z) (a : R) :
  c' <> c -> vset v c a c' = v c'.
Proof. intros H. unfold vset. now destruct (Z.eqb_spec c' c). Qed.

(** A loop over the channels that adds [f c] to the first and [g c] to
    the second vector. *)
Lemma channel_loop (f g : Z -> R) (cs : list Z) :
  NoDup cs ->
  forall (acc : vec * vec) (c : Z),
    let acc' :=
      fold_left (fun (a : vec * vec) c =>
                   (vset (fst a) c (fst a c + f c),
                    vset (snd a) c (snd a c + g c))) cs acc in
    (In c cs ->
     fst acc' c = fst acc c + f c /\ snd acc' c = snd acc c + g c)
    /\ (~ In c cs -> fst acc' c = fst acc c /\ snd acc' c = snd acc c).
Proof.
  induction 1 as [|k cs Hnin Hnd IH]; intros acc c; cbn [fold_left].
  - cbn. split; [contradiction|auto].
  - specialize (IH (vset (fst acc) k (fst acc k + f k),
                    vset (snd acc) k (snd acc k + g k)) c).
    cbv zeta in IH. cbn [fst snd] in IH. destruct IH as [Hin Hout].
    split.
    + intros [Heq | Hc].
      * subst k. destruct (Hout Hnin) as [H1 H2].
        rewrite H1, H2, !vset_same. auto.
      * destruct (Hin Hc) as [H1 H2]. rewrite H1, H2.
        assert (c <> k) by (intros ->; contradiction).
        rewrite !vset_other by assumption. auto.
    + intros Hn. destruct Hout as [H1 H2];
        [intros Hc; apply Hn; now right|].
      rewrite H1, H2.
      assert (c <> k) by (intros ->; apply Hn; now left).
      rewrite !vset_other by assumption. auto.
Qed.

(** A loop whose body adds [f k c] and [g k c] to the entries [c] of the
    two vectors accumulates the sums of [f] and [g]. *)
Lemma accum_loop {K : Type} (dim : Z) (step : vec * vec -> K -> vec * vec)
    (f g : K -> Z -> R) :
  (forall acc k c, (0 <= c < dim)%Z ->
     fst (step acc k) c = fst acc c + f k c
     /\ snd (step acc k) c = snd acc c + g k c) ->
  forall ks acc c, (0 <= c < dim)%Z ->
    fst (fold_left step ks acc) c
    = fst acc c + Rsum (map (fun k => f k c) ks)
    /\ snd (fold_left step ks acc) c
       = snd acc c + Rsum (map (fun k => g k c) ks).
Proof.
  intros Hstep. induction ks as [|k ks IH]; intros acc c Hc;
    cbn [fold_left map].
  - cbn. split; lra.
  - destruct (IH (step acc k) c Hc) as [H1 H2].
    destruct (Hstep acc k c Hc) as [S1 S2].
    rewrite H1, H2, S1, S2, !Rsum_cons. split; lra.
Qed.

(** ** The accumulators of a pixel *)

Section PixelFacts.

Variable E : Env.
Variables (B etf noise : Mat) (width height dim : Z) (y x : Z).

Lemma sample_step_spec (theta : R) (acc : vec * vec) (s c : Z) :
  (0 <= c < dim)%Z ->
  let p := ref_landing y x theta s in
  fst (sample_step E B noise width height dim y x theta acc s) c
  = fst acc c
    + (if in_image width height (fst p) (snd p)
       then ref_G2 E B dim y x c p * at_ noise (snd p) (fst p)
            * (1 - at_ B y (x * dim + c))
       else 0)
  /\ snd (sample_step E B noise width height dim y x theta acc s) c
     = snd acc c
       + (if in_image width height (fst p) (snd p)
          then ref_G2 E B dim y x c p else 0).
Proof.
  intros Hc p. unfold sample_step. cbv zeta.
  change (trunc (IZR x + Const.S / IZR Const.s_disc * IZR s * cos theta))
    with (fst p).
  change (trunc (IZR y + Const.S / IZR Const.s_disc * IZR s * sin theta))
    with (snd p).
  destruct (in_image width height (fst p) (snd p)).
  - pose proof (channel_loop
      (fun c => ref_G2 E B dim y x c p * at_ noise (snd p) (fst p)
                * (1 - at_ B y (x * dim + c)))
      (fun c => ref_G2 E B dim y x c p)
      (zrange 0 dim) (NoDup_zrange 0 dim) acc c) as [Hin _].
    apply Hin. now apply in_zrange.
  - split; lra.
Qed.

Lemma sample_loop (theta : R) (c : Z) :
  (0 <= c < dim)%Z ->
  let sw := fold_left (sample_step E B noise width height dim y x theta)
                      (zrange (- Const.s_disc) (Const.s_disc + 1))
                      (vfill 0, vfill 0) in
  fst sw c = ref_s_sum E B noise width height dim y x theta c
  /\ snd sw c = ref_w_sum E B width height dim y x theta c.
Proof.
  intros Hc sw. unfold sw.
  destruct (accum_loop dim
    (sample_step E B noise width height dim y x theta) _ _
    (fun acc s c Hc => sample_step_spec theta acc s c Hc)
    (zrange (- Const.s_disc) (Const.s_disc + 1)) (vfill 0, vfill 0) c Hc)
    as [H1 H2].
  rewrite H1, H2. cbn [fst snd]. unfold vfill.
  unfold ref_s_sum, ref_w_sum, ref_samples.
  rewrite !map_filter_map, <- !Rsum_filter.
  change (zrange (- Const.s_disc) (Const.s_disc + 1)) with (zrange (-24) 25).
  split; apply Rplus_0_l.
Qed.

Lemma angle_step_spec (t_i : R) (acc : vec * vec) (t c : Z) :
  (0 <= c < dim)%Z ->
  fst (angle_step E B etf noise width height dim y x t_i acc t) c
  = fst acc c
    + ref_G1 E etf y x t_i t
      * ref_s_sum E B noise width height dim y x (ref_theta etf y x t) c
  /\ snd (angle_step E B etf noise width height dim y x t_i acc t) c
     = snd acc c
       + ref_G1 E etf y x t_i t
         * ref_w_sum E B width height dim y x (ref_theta etf y x t) c.
Proof.
  intros Hc. unfold angle_step. cbv zeta.
  change (Const.tau / IZR Const.t_disc * IZR t + at_ etf y x)
    with (ref_theta etf y x t).
  change (gauss E (t_i - ref_theta etf y x t) Const.sigma_1)
    with (ref_G1 E etf y x t_i t).
  destruct (sample_loop (ref_theta etf y x t) c Hc) as [S1 S2].
  cbv zeta in S1, S2. rewrite <- S1, <- S2.
  set (sw := fold_left _ _ (vfill 0, vfill 0)).
  pose proof (channel_loop
    (fun c => ref_G1 E etf y x t_i t * fst sw c)
    (fun c => ref_G1 E etf y x t_i t * snd sw c)
    (zrange 0 dim) (NoDup_zrange 0 dim) acc c) as [Hin _].
  apply Hin. now apply in_zrange.
Qed.

(** After the loop over the angle candidates, [sum] and [weight] hold
    the two double sums of the reference definition. *)
Lemma pixel_accum_reference (t_i : R) (c : Z) :
  (0 <= c < dim)%Z ->
  fst (pixel_accum E B etf noise width height dim y x t_i) c
  = ref_sum E B etf noise width height dim y x t_i c
  /\ snd (pixel_accum E B etf noise width height dim y x t_i) c
     = ref_weight E B etf width height dim y x t_i c.
Proof.
  intros Hc. unfold pixel_accum.
  destruct (accum_loop dim
    (angle_step E B etf noise width height dim y x t_i) _ _
    (fun acc t c Hc => angle_step_spec t_i acc t c Hc)
    (zrange (- Const.t_disc) (Const.t_disc + 1)) (vfill 0, vfill 0) c Hc)
    as [H1 H2].
  rewrite H1, H2. cbn [fst snd]. unfold vfill, ref_sum, ref_weight.
  change (zrange (- Const.t_disc) (Const.t_disc + 1)) with (zrange (-24) 25).
  split; apply Rplus_0_l.
Qed.

(** The sample [s = 0] lands on the pixel itself. *)
Lemma landing_centre (theta : R) : ref_landing y x theta 0 = (x, y).
Proof.
  unfold ref_landing. cbv zeta.
  rewrite !Rmult_0_r, !Rmult_0_l, !Rplus_0_r, !trunc_IZR. reflexivity.
Qed.

Lemma ref_w_sum_pos (theta : R) (c : Z) :
  (forall d sigma, 0 < gauss E d sigma) ->
  (0 <= y < height)%Z -> (0 <= x < width)%Z ->
  0 < ref_w_sum E B width height dim y x theta c.
Proof.
  intros Hg Hy Hx. unfold ref_w_sum. apply Rsum_pos.
  - assert (Hin : In (x, y) (ref_samples width height y x theta)).
    { unfold ref_samples. apply filter_In. split.
      - rewrite <- (landing_centre theta). apply in_map.
        apply in_zrange. lia.
      - cbn [fst snd]. unfold in_image.
        apply andb_true_intro; split; [|apply Z.ltb_lt; lia].
        apply andb_true_intro; split; [|apply Z.ltb_lt; lia].
        apply andb_true_intro; split; apply Z.leb_le; lia. }
    intros Hnil. apply (f_equal (@length R)) in Hnil.
    rewrite length_map in Hnil.
    destruct (ref_samples width height y x theta); [contradiction|].
    discriminate.
  - intros a Ha. apply in_map_iff in Ha as [p [<- _]]. apply Hg.
Qed.

Lemma ref_weight_pos (t_i : R) (c : Z) :
  (forall d sigma, 0 < gauss E d sigma) ->
  (0 <= y < height)%Z -> (0 <= x < width)%Z ->
  0 < ref_weight E B etf width height dim y x t_i c.
Proof.
  intros Hg Hy Hx. unfold ref_weight. apply Rsum_pos.
  - rewrite (zrange_cons (-24) 25) by lia. discriminate.
  - intros a Ha. apply in_map_iff in Ha as [t [<- _]].
    apply Rmult_lt_0_compat; [apply Hg|now apply ref_w_sum_pos].
Qed.

End PixelFacts.


(** ** The scan of LIConv *)

Section Scan.

Variable E : Env.
Variables (B etf noise : Mat) (width height dim : Z) (ratio : R).


Lemma pixel_write_extent (y x : Z) (sw : vec * vec) (lic : Mat) :
  rows (pixel_write dim y x ratio sw lic) = rows lic
  /\ cols (pixel_write dim y x ratio sw lic) = cols lic
  /\ channels (pixel_write dim y x ratio sw lic) = channels lic
  /\ depth (pixel_write dim y x ratio sw lic) = depth lic.
Proof.
  unfold pixel_write. generalize (zrange 0 dim) as cs. intros cs. revert lic.
  induction cs as [|c cs IH]; intros lic; cbn [fold_left]; [auto|].
  destruct (IH (mat_set lic y (x * dim + c)
                        (1 - fst sw c / (ratio * snd sw c))))
    as (H1 & H2 & H3 & H4).
  cbn [rows cols channels depth mat_set] in *. auto.
Qed.

Lemma pixel_write_other (y x : Z) (sw : vec * vec) (lic : Mat) (y' j' : Z) :
  (forall c, (0 <= c < dim)%Z -> (y', j') <> (y, x * dim + c)%Z) ->
  at_ (pixel_write dim y x ratio sw lic) y' j' = at_ lic y' j'.
Proof.
  intros Hne. unfold pixel_write.
  assert (Hcs : forall c, In c (zrange 0 dim) -> (0 <= c < dim)%Z)
    by (intros c; apply in_zrange).
  revert Hcs. generalize (zrange 0 dim) as cs. intros cs. revert lic.
  induction cs as [|c cs IH]; intros lic Hcs; cbn [fold_left]; [reflexivity|].
  rewrite IH by (intros c' Hc'; apply Hcs; now right).
  apply mat_set_other. apply Hne, Hcs. now left.
Qed.

Lemma pixel_write_skip (y x : Z) (sw : vec * vec) (cs : list Z) (c : Z) :
  ~ In c cs ->
  forall lic,
    at_ (fold_left
           (fun lic c =>
              mat_set lic y (x * dim + c) (1 - fst sw c / (ratio * snd sw c)))
           cs lic) y (x * dim + c)
    = at_ lic y (x * dim + c).
Proof.
  induction cs as [|k cs IH]; intros Hnin lic; cbn [fold_left];
    [reflexivity|].
  rewrite IH by (intros H; apply Hnin; now right).
  apply mat_set_other. intros Heq. inversion Heq. apply Hnin. left. lia.
Qed.

Lemma pixel_write_at (y x : Z) (sw : vec * vec) (lic : Mat) (c : Z) :
  (0 <= c < dim)%Z ->
  at_ (pixel_write dim y x ratio sw lic) y (x * dim + c)
  = 1 - fst sw c / (ratio * snd sw c).
Proof.
  intros Hc. unfold pixel_write.
  apply (in_zrange 0 dim c) in Hc.
  pose proof (NoDup_zrange 0 dim) as Hnd. revert Hc Hnd.
  generalize (zrange 0 dim) as cs. intros cs. revert lic.
  induction cs as [|k cs IH]; intros lic Hc Hnd; cbn [fold_left];
    [contradiction|].
  inversion Hnd as [|? ? Hnin Hnd']; subst.
  destruct Hc as [-> | Hc].
  - rewrite pixel_write_skip by assumption. apply mat_set_same.
  - now apply IH.
Qed.

Lemma LIConv_pixel_state (y x : Z) (a : Mat * RandState E) :
  snd (LIConv_pixel E B etf noise width height dim y x ratio a)
  = mkRand (snd (randInt E 5 (gen (snd a)))) (S (calls (snd a))).
Proof. reflexivity. Qed.

Lemma gen_after_succ (i : nat) (g : Gen E) :
  gen_after E (S i) g = gen_after E i (snd (randInt E 5 g)).
Proof. unfold gen_after. now rewrite Nat.iter_succ_r. Qed.

Lemma scan_pixels_cons (k : Z * Z) (ks : list (Z * Z))
    (a : Mat * RandState E) :
  scan_pixels E B etf noise width height dim ratio (k :: ks) a
  = scan_pixels E B etf noise width height dim ratio ks
      (scan_step E B etf noise width height dim ratio a k).
Proof. reflexivity. Qed.

Lemma scan_state (ks : list (Z * Z)) :
  forall a,
    let r := scan_pixels E B etf noise width height dim ratio ks a in
    gen (snd r) = gen_after E (length ks) (gen (snd a))
    /\ calls (snd r) = (calls (snd a) + length ks)%nat.
Proof.
  induction ks as [|k ks IH]; intros a; cbv zeta.
  - cbn. split; [reflexivity|lia].
  - rewrite scan_pixels_cons.
    destruct (IH (scan_step E B etf noise width height dim ratio a k))
      as [Hg Hc].
    rewrite Hg, Hc.
    assert (Hs : snd (scan_step E B etf noise width height dim ratio a k)
                 = mkRand (snd (randInt E 5 (gen (snd a))))
                          (S (calls (snd a)))) by reflexivity.
    rewrite Hs. cbn [gen calls length].
    rewrite gen_after_succ. split; [reflexivity|lia].
Qed.

Lemma scan_extent (ks : list (Z * Z)) :
  forall a,
    let r := scan_pixels E B etf noise width height dim ratio ks a in
    rows (fst r) = rows (fst a) /\ cols (fst r) = cols (fst a)
    /\ channels (fst r) = channels (fst a)
    /\ depth (fst r) = depth (fst a).
Proof.
  induction ks as [|k ks IH]; intros a; cbv zeta; [cbn; auto|].
  rewrite scan_pixels_cons.
  destruct (IH (scan_step E B etf noise width height dim ratio a k))
    as (H1 & H2 & H3 & H4).
  rewrite H1, H2, H3, H4. unfold scan_step, LIConv_pixel. cbn [fst].
  apply pixel_write_extent.
Qed.

(** Two distinct pixels own disjoint cells of the output row. *)
Lemma cells_disjoint (y x y' x' c c' : Z) :
  (0 <= c < dim)%Z -> (0 <= c' < dim)%Z -> (y', x') <> (y, x) ->
  (y, x * dim + c)%Z <> (y', x' * dim + c')%Z.
Proof.
  intros Hc Hc' Hne Heq. inversion Heq as [[Hy Hj]]. apply Hne.
  f_equal; [congruence|]. nia.
Qed.

Lemma scan_frame (ks : list (Z * Z)) (y x c : Z) :
  (0 <= c < dim)%Z -> ~ In (y, x) ks ->
  forall a,
    at_ (fst (scan_pixels E B etf noise width height dim ratio ks a))
        y (x * dim + c)
    = at_ (fst a) y (x * dim + c).
Proof.
  intros Hc. induction ks as [|k ks IH]; intros Hnin a; [reflexivity|].
  rewrite scan_pixels_cons.
  rewrite IH by (intros H; apply Hnin; now right).
  unfold scan_step, LIConv_pixel. cbn [fst].
  apply pixel_write_other. intros c' Hc'.
  apply cells_disjoint; try assumption.
  intros Heq. apply Hnin. left. destruct k; cbn in *. congruence.
Qed.

Lemma scan_at (pre post : list (Z * Z)) (y x c : Z) :
  (0 <= c < dim)%Z -> ~ In (y, x) post ->
  forall a,
    let t_i := jitter (fst (randInt E 5
                              (gen_after E (length pre) (gen (snd a))))) in
    let sw := pixel_accum E B etf noise width height dim y x t_i in
    at_ (fst (scan_pixels E B etf noise width height dim ratio
                          (pre ++ (y, x) :: post) a))
        y (x * dim + c)
    = 1 - fst sw c / (ratio * snd sw c).
Proof.
  intros Hc Hnin a t_i sw. unfold scan_pixels. rewrite fold_left_app.
  cbn [fold_left].
  fold (scan_pixels E B etf noise width height dim ratio pre a).
  fold (scan_pixels E B etf noise width height dim ratio post
          (scan_step E B etf noise width height dim ratio
             (scan_pixels E B etf noise width height dim ratio pre a)
             (y, x))).
  rewrite scan_frame by assumption.
  unfold scan_step. cbn [fst snd]. unfold LIConv_pixel. cbn [fst].
  rewrite pixel_write_at by assumption.
  destruct (scan_state pre a) as [Hg _].
  unfold rand_randInt. cbn [fst]. rewrite Hg. reflexivity.
Qed.

End Scan.

Lemma LIConv_assert_iff (img m : Mat) :
  LIConv_assert img m = true
  <-> cols img = cols m /\ rows img = rows m /\ channels m = 1%Z
      /\ depth m = CV_32F.
Proof.
  unfold LIConv_assert. rewrite !andb_true_iff, !Z.eqb_eq.
  assert (Hd : depth_eqb (depth m) CV_32F = true <-> depth m = CV_32F)
    by (destruct (depth m); cbn; split; congruence).
  tauto.
Qed.

(** Shape of a successful run of [LIConv]. *)
Lemma LIConv_run (E : Env) (img etf noise : Mat) (ratio : R)
    (s : RandState E) :
  LIConv_assert img etf = true -> LIConv_assert img noise = true ->
  LIConv E img etf noise ratio s
  = Some (scan_pixels E (bilateralFilter E img 19 (1 / 2) 15) etf noise
            (cols img) (rows img) (channels img) ratio
            (grid (rows img) (cols img))
            (Mat_zeros (rows img) (cols img) (depth img) (channels img),
             rand_getRNG E s)).
Proof.
  intros H1 H2. unfold LIConv. rewrite H1, H2. cbn [andb].
  now rewrite for_pixels_grid.
Qed.

Lemma LIConv_inv (E : Env) (img etf noise : Mat) (ratio : R)
    (s : RandState E) (lic : Mat) (s' : RandState E) :
  LIConv E img etf noise ratio s = Some (lic, s') ->
  scan_pixels E (bilateralFilter E img 19 (1 / 2) 15) etf noise
    (cols img) (rows img) (channels img) ratio
    (grid (rows img) (cols img))
    (Mat_zeros (rows img) (cols img) (depth img) (channels img),
     rand_getRNG E s)
  = (lic, s').
Proof.
  unfold LIConv.
  destruct (LIConv_assert img etf && LIConv_assert img noise);
    [|discriminate].
  rewrite for_pixels_grid. intros H. injection H as Heq. exact Heq.
Qed.

(** Number of draws of a run of [LIConv]. *)
Lemma LIConv_calls (E : Env) (img etf noise : Mat) (ratio : R)
    (s : RandState E) (lic : Mat) (s' : RandState E) :
  LIConv E img etf noise ratio s = Some (lic, s') ->
  calls s' = (calls s + Z.to_nat (rows img) * Z.to_nat (cols img))%nat.
Proof.
  intros Hrun. apply LIConv_inv in Hrun.
  destruct (scan_state E (bilateralFilter E img 19 (1 / 2) 15) etf noise
              (cols img) (rows img) (channels img) ratio
              (grid (rows img) (cols img))
              (Mat_zeros (rows img) (cols img) (depth img) (channels img),
               rand_getRNG E s)) as [_ Hc].
  rewrite Hrun in Hc. cbn [snd rand_getRNG calls] in Hc.
  now rewrite grid_length in Hc.
Qed.

Lemma LIConv_extent (E : Env) (img etf noise : Mat) (ratio : R)
    (s : RandState E) (lic : Mat) (s' : RandState E) :
  LIConv E img etf noise ratio s = Some (lic, s') ->
  rows lic = rows img /\ cols lic = cols img
  /\ channels lic = channels img /\ depth lic = depth img.
Proof.
  intros Hrun. apply LIConv_inv in Hrun.
  destruct (scan_extent E (bilateralFilter E img 19 (1 / 2) 15) etf noise
              (cols img) (rows img) (channels img) ratio
              (grid (rows img) (cols img))
              (Mat_zeros (rows img) (cols img) (depth img) (channels img),
               rand_getRNG E s)) as (H1 & H2 & H3 & H4).
  rewrite Hrun in H1, H2, H3, H4. cbn [fst] in *. auto.
Qed.

(** C1. When its assertions hold, [LIConv] returns a matrix of the extent
    of the image whose value at every pixel and channel is the
    double-Gaussian line integral of the reference definition: 49 angle
    candidates, 49 samples each at distances [7/24 * s], samples landing
    outside the image skipped, tone weight [G2] of width 2, angle weight
    [G1] of width 4 around the jitter of the pixel's draw, and
    [1 - sum / (ratio * weight)] as the result. *)
Theorem LIConv_reference (E : Env) (img etf noise : Mat) (ratio : R)
    (s : RandState E) :
  LIConv_assert img etf = true ->
  LIConv_assert img noise = true ->
  exists lic s',
    LIConv E img etf noise ratio s = Some (lic, s')
    /\ rows lic = rows img /\ cols lic = cols img
    /\ channels lic = channels img
    /\ forall y x c,
         (0 <= y < rows img)%Z -> (0 <= x < cols img)%Z ->
         (0 <= c < channels img)%Z ->
         at_ lic y (x * channels img + c)
         = LIC_reference E (bilateralFilter E img 19 (1 / 2) 15) etf noise
             (cols img) (rows img) (channels img) y x ratio
             (ref_jitter
                (draw_at E (gen s) (Z.to_nat (y * cols img + x)))) c.
Proof.
  intros H1 H2. pose proof (LIConv_run E img etf noise ratio s H1 H2) as Hrun.
  destruct (scan_pixels _ _ _ _ _ _ _ _ _ _) as [lic s'] eqn:Hfold in Hrun.
  exists lic, s'. split; [exact Hrun|].
  destruct (LIConv_extent E img etf noise ratio s lic s' Hrun)
    as (Hr & Hc & Hch & _).
  repeat (split; [assumption|]).
  intros y x c Hy Hx Hcc.
  destruct (grid_split (rows img) (cols img) y x Hy Hx)
    as (pre & post & Hg & Hlen & Hnin).
  replace lic with (fst (lic, s')) by reflexivity. rewrite <- Hfold, Hg.
  rewrite (scan_at E (bilateralFilter E img 19 (1 / 2) 15) etf noise
             (cols img) (rows img) (channels img) ratio pre post y x c
             Hcc Hnin).
  cbn [snd rand_getRNG gen]. rewrite Hlen.
  destruct (pixel_accum_reference E (bilateralFilter E img 19 (1 / 2) 15)
              etf noise (cols img) (rows img) (channels img) y x
              (jitter (fst (randInt E 5
                 (gen_after E (Z.to_nat (y * cols img + x))
                    (getRNG E (gen s)))))) c Hcc) as [Hs Hw].
  rewrite Hs, Hw. reflexivity.
Qed.

(** C3. In exact real arithmetic, with positive Gaussian weights and a
    positive [ratio], no output value divides by zero: at every pixel of
    the image the sample [s = 0] lands on the pixel itself, the
    accumulated [weight[c]] is positive whatever the jitter, and so is
    the divisor [ratio * weight[c]]. *)
Theorem LIConv_divisor_positive (E : Env) (img etf noise : Mat) (ratio : R)
    (y x c : Z) :
  (forall d sigma, 0 < gauss E d sigma) ->
  0 < ratio ->
  (0 <= y < rows img)%Z -> (0 <= x < cols img)%Z ->
  (0 <= c < channels img)%Z ->
  (forall theta,
     trunc (IZR x + Const.S / IZR Const.s_disc * IZR 0 * cos theta) = x
     /\ trunc (IZR y + Const.S / IZR Const.s_disc * IZR 0 * sin theta) = y)
  /\ forall t_i,
       let sw := pixel_accum E (bilateralFilter E img 19 (1 / 2) 15) etf noise
                   (cols img) (rows img) (channels img) y x t_i in
       0 < snd sw c /\ 0 < ratio * snd sw c.
Proof.
  intros Hg Hratio Hy Hx Hc. split.
  - intros theta. pose proof (landing_centre y x theta) as Hl.
    unfold ref_landing in Hl. cbv zeta in Hl. injection Hl as H1 H2.
    split; [exact H1|exact H2].
  - intros t_i sw.
    destruct (pixel_accum_reference E (bilateralFilter E img 19 (1 / 2) 15)
                etf noise (cols img) (rows img) (channels img) y x t_i c Hc)
      as [_ Hw].
    fold sw in Hw.
    assert (Hpos : 0 < snd sw c).
    { rewrite Hw. now apply ref_weight_pos. }
    split; [exact Hpos|]. now apply Rmult_lt_0_compat.
Qed.

Lemma Demo_gauss_pos (d sigma : R) : 0 < gauss Demo.env d sigma.
Proof. apply exp_pos. Qed.

Lemma LIConv_reference_witness :
  exists lic s',
    LIConv Demo.env (Demo.flat 1 2 (1 / 2)) (Demo.flat 1 2 0)
           (Demo.flat 1 2 1) 0.3 Demo.init = Some (lic, s')
    /\ rows lic = 1%Z /\ cols lic = 2%Z /\ channels lic = 1%Z
    /\ forall y x c,
         (0 <= y < 1)%Z -> (0 <= x < 2)%Z -> (0 <= c < 1)%Z ->
         at_ lic y (x * 1 + c)
         = LIC_reference Demo.env
             (bilateralFilter Demo.env (Demo.flat 1 2 (1 / 2)) 19 (1 / 2) 15)
             (Demo.flat 1 2 0) (Demo.flat 1 2 1) 2 1 1 y x 0.3
             (ref_jitter
                (draw_at Demo.env (gen Demo.init) (Z.to_nat (y * 2 + x)))) c.
Proof.
  apply (LIConv_reference Demo.env (Demo.flat 1 2 (1 / 2)) (Demo.flat 1 2 0)
           (Demo.flat 1 2 1) 0.3 Demo.init); reflexivity.
Defined.

Lemma LIConv_divisor_positive_witness :
  (forall theta,
     trunc (IZR 1 + Const.S / IZR Const.s_disc * IZR 0 * cos theta) = 1%Z
     /\ trunc (IZR 0 + Const.S / IZR Const.s_disc * IZR 0 * sin theta) = 0%Z)
  /\ forall t_i,
       let sw := pixel_accum Demo.env
                   (bilateralFilter Demo.env (Demo.flat 1 2 (1 / 2))
                      19 (1 / 2) 15)
                   (Demo.flat 1 2 0) (Demo.flat 1 2 1) 2 1 1 0 1 t_i in
       0 < snd sw 0%Z /\ 0 < 0.3 * snd sw 0%Z.
Proof.
  apply (LIConv_divisor_positive Demo.env (Demo.flat 1 2 (1 / 2))
           (Demo.flat 1 2 0) (Demo.flat 1 2 1) 0.3 0 1 0).
  - exact Demo_gauss_pos.
  - lra.
  - cbn. lia.
  - cbn. lia.
  - cbn. lia.
Defined.


(** ** The noise field and its normalisation factor *)

Lemma trunc_fifth (N : Z) : (0 <= N)%Z -> trunc (0.2 * IZR N) = (N / 5)%Z.
Proof.
  intros HN. assert (H0 : 0 <= IZR N) by (apply IZR_le; exact HN).
  rewrite trunc_nonneg by lra. apply Zfloor_eq.
  pose proof (Z.div_mod N 5 ltac:(lia)) as Hdm.
  pose proof (Z.mod_pos_bound N 5 ltac:(lia)) as [Hr0 Hr5].
  apply IZR_le in Hr0. apply IZR_lt in Hr5.
  apply (f_equal IZR) in Hdm. rewrite plus_IZR, mult_IZR in Hdm. lra.
Qed.

Lemma empty_ratio_formula (E : Env) (W H : Z) (gray : Mat)
    (g : Gen E) :
  (0 < W)%Z -> (0 < H)%Z -> (W * H < 2147483648)%Z ->
  snd (fst (composeNoise E W H gray [] g))
  = 1.5 * IZR (W * H / 5) / IZR (W * H).
Proof.
  intros HW HH Hsmall. cbn [composeNoise fst snd]. unfold int_mul.
  rewrite wrap32_small by nia. rewrite trunc_fifth by nia. reflexivity.
Qed.

(** C5, refuted as stated: on an image of 4 by 4 pixels without anchor
    points the count of noise pixels is 3 and the factor is 4.5 / 16,
    not 0.3. *)
Lemma empty_anchor_ratio_counterexample :
  snd (fst (composeNoise Demo.env 4 4 (Demo.flat 4 4 (1 / 2)) [] 0%nat))
  <> 0.3.
Proof.
  rewrite empty_ratio_formula by lia.
  change (4 * 4 / 5)%Z with 3%Z. change (4 * 4)%Z with 16%Z. lra.
Qed.

(** C5, amended. Without anchor points the factor is
    [1.5 * floor(0.2 * W * H) / (W * H)], the count of noise pixels being
    an [int]: it is 0.3 when [W * H] is a multiple of 5 and smaller than
    0.3 otherwise. *)
Theorem composeNoise_empty_ratio (E : Env) (W H : Z) (gray : Mat)
    (g : Gen E) :
  (0 < W)%Z -> (0 < H)%Z -> (W * H < 2147483648)%Z ->
  let ratio := snd (fst (composeNoise E W H gray [] g)) in
  ratio = 1.5 * IZR (W * H / 5) / IZR (W * H)
  /\ (((W * H) mod 5 = 0)%Z -> ratio = 0.3)
  /\ (((W * H) mod 5 <> 0)%Z -> ratio < 0.3).
Proof.
  intros HW HH Hsmall ratio. unfold ratio.
  rewrite empty_ratio_formula by assumption.
  split; [reflexivity|].
  assert (HN : (0 < W * H)%Z) by nia.
  pose proof (Z.div_mod (W * H) 5 ltac:(lia)) as Hdm.
  pose proof (Z.mod_pos_bound (W * H) 5 ltac:(lia)) as [Hr0 Hr5].
  assert (HNR : 0 < IZR (W * H)) by (apply IZR_lt; exact HN).
  assert (Hq : IZR (W * H) = 5 * IZR (W * H / 5) + IZR ((W * H) mod 5)).
  { rewrite Hdm at 1. now rewrite plus_IZR, mult_IZR. }
  split; intros Hmod.
  - rewrite Hmod, Rplus_0_r in Hq.
    apply Rmult_eq_reg_r with (IZR (W * H)); [|lra].
    unfold Rdiv. rewrite Rmult_assoc, Rinv_l by lra. lra.
  - assert (Hr : 0 < IZR ((W * H) mod 5)) by (apply IZR_lt; lia).
    apply Rmult_lt_reg_r with (IZR (W * H)); [exact HNR|].
    unfold Rdiv. rewrite Rmult_assoc, Rinv_l by lra. lra.
Qed.

Lemma composeNoise_empty_ratio_witness :
  snd (fst (composeNoise Demo.env 5 1 (Demo.flat 1 5 (1 / 2)) [] 0%nat))
  = 1.5 * IZR (5 * 1 / 5) / IZR (5 * 1)
  /\ (((5 * 1) mod 5 = 0)%Z ->
      snd (fst (composeNoise Demo.env 5 1 (Demo.flat 1 5 (1 / 2)) [] 0%nat))
      = 0.3)
  /\ (((5 * 1) mod 5 <> 0)%Z ->
      snd (fst (composeNoise Demo.env 5 1 (Demo.flat 1 5 (1 / 2)) [] 0%nat))
      < 0.3).
Proof.
  apply (composeNoise_empty_ratio Demo.env 5 1 (Demo.flat 1 5 (1 / 2)) 0%nat);
    lia.
Defined.

(** The loop over the indices of [points] visits the points in order. *)
Lemma fold_zrange_nth {A : Type} (F : A -> Point2f -> A) (d : Point2f)
    (l : list Point2f) :
  forall (pre : list Point2f) (a : A),
    fold_left (fun a i => F a (nth (Z.to_nat i) (pre ++ l) d))
              (zrange (Z.of_nat (length pre))
                      (Z.of_nat (length pre) + Z.of_nat (length l))) a
    = fold_left F l a.
Proof.
  induction l as [|p l IH]; intros pre a.
  - rewrite zrange_nil by (cbn; lia). reflexivity.
  - rewrite zrange_cons by (cbn [length]; lia). cbn [fold_left].
    rewrite Nat2Z.id, app_nth2, Nat.sub_diag by lia. cbn [nth].
    specialize (IH (pre ++ [p]) (F a p)).
    rewrite <- app_assoc in IH. cbn [app] in IH.
    rewrite length_app in IH. cbn [length] in IH.
    rewrite <- IH. f_equal. f_equal; cbn [length]; lia.
Qed.

Lemma rectangle_at (m : Mat) (x y : Z) (v : R) (r c : Z) :
  at_ (rectangle m x y 1 1 v) r c
  = if ((r =? y) && (c =? x) && in_image (cols m) (rows m) c r)%Z
    then v else at_ m r c.
Proof.
  cbn [at_ rectangle].
  destruct (Z.eqb_spec r y), (Z.eqb_spec c x), (Z.leb_spec x c),
    (Z.ltb_spec c (x + 1)), (Z.leb_spec y r), (Z.ltb_spec r (y + 1));
    cbn [andb]; try reflexivity; lia.
Qed.

Lemma stamp_loop (r : R) (points : list Point2f) :
  forall a : Mat * R,
    let a' := fold_left (stamp r) points a in
    (rows (fst a') = rows (fst a) /\ cols (fst a') = cols (fst a)
     /\ channels (fst a') = channels (fst a)
     /\ depth (fst a') = depth (fst a))
    /\ (forall y x,
          (In (y, x) (map (fun p => (trunc (pt_y p), trunc (pt_x p))) points)
           -> in_image (cols (fst a)) (rows (fst a)) x y = true
           -> at_ (fst a') y x = 1)
          /\ (~ In (y, x)
                (map (fun p => (trunc (pt_y p), trunc (pt_x p))) points)
              -> at_ (fst a') y x = at_ (fst a) y x))
    /\ (points <> [] -> snd a' = r).
Proof.
  induction points as [|p ps IH]; intros a; cbn [fold_left map].
  - cbn. repeat split; auto; try contradiction; try congruence.
  - destruct (IH (stamp r a p)) as (Hext & Hat & Hr). cbv zeta.
    cbn [stamp fst snd rectangle rows cols channels depth] in Hext.
    split; [exact Hext|]. split.
    + intros y x. destruct (Hat y x) as [Hin Hout].
      cbn [stamp fst rectangle rows cols] in Hin.
      split.
      * intros Hmem Himg.
        destruct (in_dec (fun a b : Z * Z =>
                    ltac:(decide equality; apply Z.eq_dec) : {a = b} + {a <> b})
                    (y, x)
                    (map (fun p => (trunc (pt_y p), trunc (pt_x p))) ps))
          as [Hps | Hps].
        -- now apply Hin.
        -- rewrite (Hout Hps). destruct Hmem as [Heq | Hmem];
             [|contradiction].
           inversion Heq; subst. cbn [stamp fst].
           rewrite rectangle_at, !Z.eqb_refl, Himg. reflexivity.
      * intros Hn. rewrite Hout by (intros H; apply Hn; now right).
        cbn [stamp fst]. rewrite rectangle_at.
        destruct (Z.eqb_spec y (trunc (pt_y p))),
          (Z.eqb_spec x (trunc (pt_x p))); cbn [andb]; try reflexivity.
        subst. exfalso. apply Hn. now left.
    + intros _. destruct ps as [|q ps]; [reflexivity|].
      apply Hr. discriminate.
Qed.


Lemma pixel_eq_dec (a b : Z * Z) : {a = b} + {a <> b}.
Proof. decide equality; apply Z.eq_dec. Qed.

Lemma in_image_true (w h x y : Z) :
  (0 <= x < w)%Z -> (0 <= y < h)%Z -> in_image w h x y = true.
Proof.
  intros Hx Hy. unfold in_image.
  destruct (Z.leb_spec 0 x), (Z.leb_spec 0 y), (Z.ltb_spec x w),
    (Z.ltb_spec y h); cbn; try reflexivity; lia.
Qed.

(** The stamping loop of [composeNoise], by anchor point. *)
Lemma stamping_run (E : Env) (W H : Z) (gray : Mat)
    (points : list Point2f) (g : Gen E) :
  points <> [] ->
  (- 2147483648 <= Z.of_nat (length points) < 2147483648)%Z ->
  composeNoise E W H gray points g
  = (fold_left
       (stamp (1.2 * IZR (Z.of_nat (length points)) / IZR (int_mul W H)))
       points (Mat_zeros H W CV_32F 1, 1), g).
Proof.
  intros Hne Hk. destruct points as [|p0 ps]; [congruence|].
  cbn [composeNoise]. rewrite wrap32_small by exact Hk. f_equal.
  apply (fold_zrange_nth
           (stamp (1.2 * IZR (Z.of_nat (length (p0 :: ps)))
                   / IZR (int_mul W H)))
           (mkPoint 0 0) (p0 :: ps) []).
Qed.

Lemma composeNoise_extent (E : Env) (W H : Z) (gray : Mat)
    (points : list Point2f) (g : Gen E) :
  extents_ok E ->
  let noise := fst (fst (composeNoise E W H gray points g)) in
  rows noise = H /\ cols noise = W /\ channels noise = 1%Z
  /\ depth noise = CV_32F.
Proof.
  intros He. destruct points as [|p0 ps].
  - cbn [composeNoise fst].
    apply (uniformNoise_extent E He (Mat_zeros H W CV_32F 1)).
  - cbn [composeNoise fst].
    generalize (zrange 0 (wrap32 (Z.of_nat (length (p0 :: ps))))) as ks.
    intros ks.
    assert (Hgen : forall a : Mat * R,
      let a' := fold_left
        (fun (a : Mat * R) (i : Z) =>
           (rectangle (fst a)
              (trunc (pt_x (nth (Z.to_nat i) (p0 :: ps) (mkPoint 0 0))))
              (trunc (pt_y (nth (Z.to_nat i) (p0 :: ps) (mkPoint 0 0))))
              1 1 1,
            1.2 * IZR (wrap32 (Z.of_nat (length (p0 :: ps))))
            / IZR (int_mul W H))) ks a in
      rows (fst a') = rows (fst a) /\ cols (fst a') = cols (fst a)
      /\ channels (fst a') = channels (fst a)
      /\ depth (fst a') = depth (fst a)).
    { induction ks as [|k ks IH]; intros a; cbn [fold_left]; [cbn; auto|].
      cbv zeta.
      match goal with
      | |- context [fold_left _ ks ?a0] => specialize (IH a0)
      end.
      cbv zeta in IH. cbn [fst rectangle rows cols channels depth] in IH.
      exact IH. }
    apply (Hgen (Mat_zeros H W CV_32F 1, 1)).
Qed.

(** C6. With a non-empty set of [k] anchor points whose rounded-down
    pixels are distinct and inside the image, the noise field is 1 at
    the pixel of every anchor and 0 elsewhere, it has exactly [k]
    nonzero cells, and [ratio = 1.2 * k / (W * H)]. *)
Theorem composeNoise_anchors (E : Env) (W H : Z) (gray : Mat)
    (points : list Point2f) (g : Gen E) :
  (0 < W)%Z -> (0 < H)%Z -> (W * H < 2147483648)%Z ->
  points <> [] ->
  (forall p, In p points ->
     (0 <= Zfloor (pt_x p) < W)%Z /\ (0 <= Zfloor (pt_y p) < H)%Z) ->
  NoDup (map anchor_pixel points) ->
  let noise := fst (fst (composeNoise E W H gray points g)) in
  let ratio := snd (fst (composeNoise E W H gray points g)) in
  rows noise = H /\ cols noise = W
  /\ (forall y x,
        (In (y, x) (map anchor_pixel points) -> at_ noise y x = 1)
        /\ (~ In (y, x) (map anchor_pixel points) -> at_ noise y x = 0))
  /\ count_nonzero noise = length points
  /\ ratio = 1.2 * IZR (Z.of_nat (length points)) / IZR (W * H).
Proof.
  intros HW HH Hsmall Hne Hin Hnd noise ratio.
  assert (Hgrid : forall q, In q (map anchor_pixel points) ->
                            In q (grid H W)).
  { intros [y x] Hq. apply in_map_iff in Hq as [p [Heq Hp]].
    inversion Heq; subst. apply in_grid. destruct (Hin p Hp). lia. }
  assert (Hlen : (length points <= Z.to_nat H * Z.to_nat W)%nat).
  { rewrite <- (length_map anchor_pixel), <- grid_length.
    apply NoDup_incl_length; [exact Hnd|exact Hgrid]. }
  assert (Hk : (- 2147483648 <= Z.of_nat (length points) < 2147483648)%Z)
    by nia.
  assert (Htr : map (fun p => (trunc (pt_y p), trunc (pt_x p))) points
                = map anchor_pixel points).
  { apply map_ext_in. intros p Hp. destruct (Hin p Hp) as [Hx Hy].
    unfold anchor_pixel.
    rewrite !trunc_nonneg by (apply Zfloor_nonneg_inv; lia). reflexivity. }
  unfold noise, ratio.
  rewrite stamping_run by assumption. cbn [fst snd].
  destruct (stamp_loop
              (1.2 * IZR (Z.of_nat (length points)) / IZR (int_mul W H))
              points (Mat_zeros H W CV_32F 1, 1))
    as ((Hr & Hc & _) & Hat & Hratio).
  cbn [fst Mat_zeros rows cols at_] in Hr, Hc, Hat. rewrite Htr in Hat.
  set (a' := fold_left _ points _) in *.
  assert (Hcell : forall y x,
    (In (y, x) (map anchor_pixel points) -> at_ (fst a') y x = 1)
    /\ (~ In (y, x) (map anchor_pixel points) -> at_ (fst a') y x = 0)).
  { intros y x. destruct (Hat y x) as [H1 H0]. split; [|exact H0].
    intros Hq. apply H1; [exact Hq|].
    apply Hgrid, in_grid in Hq. apply in_image_true; lia. }
  split; [exact Hr|]. split; [exact Hc|]. split; [exact Hcell|]. split.
  - unfold count_nonzero. rewrite Hr, Hc.
    rewrite <- (length_map anchor_pixel points).
    apply Permutation_length, NoDup_Permutation.
    + apply NoDup_filter, NoDup_grid.
    + exact Hnd.
    + intros [y x]. rewrite filter_In. cbn [fst snd]. split.
      * intros [_ Hnz].
        destruct (in_dec pixel_eq_dec (y, x) (map anchor_pixel points))
          as [Hq | Hq]; [exact Hq|].
        destruct (Hcell y x) as [_ H0]. rewrite (H0 Hq) in Hnz.
        unfold Reqb in Hnz. destruct (Req_dec_T 0 0); [discriminate|].
        congruence.
      * intros Hq. split; [now apply Hgrid|].
        destruct (Hcell y x) as [H1 _]. rewrite (H1 Hq).
        rewrite Reqb_false by lra. reflexivity.
  - rewrite Hratio by exact Hne. unfold int_mul.
    rewrite wrap32_small by nia. reflexivity.
Qed.

Lemma Zfloor_half : Zfloor (1 / 2) = 0%Z.
Proof. apply Zfloor_eq. lra. Qed.

Lemma Zfloor_three_halves : Zfloor (3 / 2) = 1%Z.
Proof. apply Zfloor_eq. lra. Qed.

Lemma composeNoise_anchors_witness :
  let points := [mkPoint (1 / 2) (1 / 2); mkPoint (3 / 2) (1 / 2)] in
  let noise :=
    fst (fst (composeNoise Demo.env 2 1 (Demo.flat 1 2 0) points 0%nat)) in
  let ratio :=
    snd (fst (composeNoise Demo.env 2 1 (Demo.flat 1 2 0) points 0%nat)) in
  rows noise = 1%Z /\ cols noise = 2%Z
  /\ (forall y x,
        (In (y, x) (map anchor_pixel points) -> at_ noise y x = 1)
        /\ (~ In (y, x) (map anchor_pixel points) -> at_ noise y x = 0))
  /\ count_nonzero noise = length points
  /\ ratio = 1.2 * IZR (Z.of_nat (length points)) / IZR (2 * 1).
Proof.
  intros points.
  apply (composeNoise_anchors Demo.env 2 1 (Demo.flat 1 2 0) points 0%nat).
  - lia.
  - lia.
  - lia.
  - discriminate.
  - intros p [<- | [<- | []]]; cbn [pt_x pt_y];
      rewrite ?Zfloor_half, ?Zfloor_three_halves; lia.
  - cbn [map points]. unfold anchor_pixel. cbn [pt_x pt_y].
    rewrite Zfloor_half, Zfloor_three_halves.
    repeat constructor; cbn [In]; intuition discriminate.
Defined.


(** ** pencilDrawing *)

Lemma float_image_extent (input : Mat) :
  rows (float_image input) = rows input
  /\ cols (float_image input) = cols input
  /\ channels (float_image input) = channels input
  /\ depth (float_image input) = CV_32F.
Proof. unfold float_image. destruct (depth_eqb _ _); cbn; auto. Qed.

(** With collaborators that respect the extents, the assertions of
    [LIConv] hold inside [pencilDrawing]: the call returns, its result
    has the extent of the input, and it draws once per pixel. *)
Lemma pencilDrawing_run (E : Env) (input : Mat) (points : list Point2f)
    (s : RandState E) :
  extents_ok E ->
  exists out s',
    pencilDrawing E input points s = Some (out, s')
    /\ (rows out = rows input /\ cols out = cols input
        /\ channels out = channels input /\ depth out = CV_32F)
    /\ calls s'
       = (calls s + Z.to_nat (rows input) * Z.to_nat (cols input))%nat.
Proof.
  intros He. unfold pencilDrawing.
  destruct (float_image_extent input) as (Fr & Fc & Fch & Fd).
  set (img := float_image input) in *.
  set (gray := cvtColor E img).
  set (st0 := store_set _ l_edge _).
  set (nr := composeNoise E (cols input) (rows input) gray points (gen s)).
  destruct (cvtColor_extent E He img) as [Gr Gc]. fold gray in Gr, Gc.
  destruct (calcVectorField_extent E He gray Const.ksize)
    as (Vr & Vc & Vch & Vd).
  destruct (quantizeOrientation_extent E l_vfield l_edge st0)
    as (Qr & Qc & Qch & Qd).
  change (st0 l_vfield) with (calcVectorField E gray Const.ksize)
    in Qr, Qc, Qch, Qd.
  destruct (composeNoise_extent E (cols input) (rows input) gray points
              (gen s) He) as (Nr & Nc & Nch & Nd).
  fold nr in Nr, Nc, Nch, Nd.
  assert (A1 : LIConv_assert img
                 (quantizeOrientation E l_vfield l_edge st0 l_vfield) = true).
  { apply LIConv_assert_iff. repeat split; congruence. }
  assert (A2 : LIConv_assert img (fst (fst nr)) = true).
  { apply LIConv_assert_iff. repeat split; congruence. }
  pose proof (LIConv_run E img _ _ (snd (fst nr))
                (mkRand (snd nr) (calls s)) A1 A2) as Hrun.
  destruct (scan_pixels _ _ _ _ _ _ _ _ _ _) as [out s'] eqn:Hfold in Hrun.
  exists out, s'. split; [exact Hrun|].
  destruct (LIConv_extent E _ _ _ _ _ _ _ Hrun) as (Lr & Lc & Lch & Ld).
  pose proof (LIConv_calls E _ _ _ _ _ _ _ Hrun) as Hcalls.
  cbn [calls] in Hcalls.
  split; [repeat split; congruence|]. rewrite Hcalls. congruence.
Qed.

Lemma pencilDrawing_extent (E : Env) (input : Mat) (points : list Point2f)
    (s : RandState E) (out : Mat) (s' : RandState E) :
  pencilDrawing E input points s = Some (out, s') ->
  rows out = rows input /\ cols out = cols input
  /\ channels out = channels input /\ depth out = CV_32F.
Proof.
  unfold pencilDrawing. intros Hrun.
  destruct (float_image_extent input) as (Fr & Fc & Fch & Fd).
  destruct (LIConv_extent E _ _ _ _ _ _ _ Hrun) as (Lr & Lc & Lch & Ld).
  repeat split; congruence.
Qed.

Lemma Demo_extents_ok : extents_ok Demo.env.
Proof. constructor; intros; cbn; auto. Qed.

(** C9, refuted as stated: the render of an image two pixels wide and
    one pixel high makes two draws, not one per row. *)
Lemma draws_per_row_counterexample :
  exists out s',
    pencilDrawing Demo.env (Demo.flat 1 2 (1 / 2)) [] Demo.init
    = Some (out, s')
    /\ calls s' = 2%nat
    /\ calls s' <> Z.to_nat (rows (Demo.flat 1 2 (1 / 2))).
Proof.
  destruct (pencilDrawing_run Demo.env (Demo.flat 1 2 (1 / 2)) [] Demo.init
              Demo_extents_ok) as (out & s' & Hrun & _ & Hcalls).
  exists out, s'. split; [exact Hrun|]. rewrite Hcalls. cbn. split; lia.
Qed.

(** C9, amended. A single-scale render consults the generator once per
    output pixel: with collaborators that respect the extents,
    [pencilDrawing] returns and has made exactly [width * height] draws. *)
Theorem pencilDrawing_draws (E : Env) (input : Mat) (points : list Point2f)
    (s : RandState E) :
  extents_ok E ->
  exists out s',
    pencilDrawing E input points s = Some (out, s')
    /\ calls s'
       = (calls s + Z.to_nat (cols input) * Z.to_nat (rows input))%nat.
Proof.
  intros He.
  destruct (pencilDrawing_run E input points s He)
    as (out & s' & Hrun & _ & Hcalls).
  exists out, s'. split; [exact Hrun|]. rewrite Hcalls. lia.
Qed.

Lemma pencilDrawing_draws_witness :
  exists out s',
    pencilDrawing Demo.env (Demo.flat 2 3 (1 / 2)) [] Demo.init
    = Some (out, s')
    /\ calls s'
       = (calls Demo.init
          + Z.to_nat (cols (Demo.flat 2 3 (1 / 2)))
            * Z.to_nat (rows (Demo.flat 2 3 (1 / 2))))%nat.
Proof.
  apply (pencilDrawing_draws Demo.env (Demo.flat 2 3 (1 / 2)) [] Demo.init).
  exact Demo_extents_ok.
Defined.

(** ** pencilDrawingLOD *)

Lemma powerRZ_nat (z : Z) : (0 <= z)%Z -> powerRZ 2 z = 2 ^ Z.to_nat z.
Proof.
  intros Hz. destruct z as [|p|p]; [reflexivity| |lia].
  cbn [powerRZ]. now rewrite Z2Nat.inj_pos.
Qed.

(** The loop that fills [P] multiplies every coordinate by the scale of
    the level. *)
Lemma scale_points_level (points : list Point2f) (l : Z) :
  (1 <= l)%Z ->
  scale_points points (1 / powerRZ 2 (l - 1)) = level_anchors points l.
Proof.
  intros Hl. rewrite powerRZ_nat by lia. unfold scale_points.
  induction points as [|p ps IH]; cbn [map level_anchors]; [reflexivity|].
  rewrite IH. f_equal. f_equal; apply Rmult_comm.
Qed.

Lemma LOD_step_level (E : Env) (img : Mat) (points : list Point2f)
    (out : Mat) (s : RandState E) (l : Z) :
  (1 <= l)%Z ->
  LOD_step E img points (Some (out, s)) l
  = match level_result E img points l s with
    | Some (o, s') => Some (mat_add out o, s')
    | None => None
    end.
Proof.
  intros Hl. unfold LOD_step, level_result.
  rewrite scale_points_level by exact Hl.
  rewrite powerRZ_nat by lia.
  destruct (pencilDrawing E _ _ s) as [[o s']|]; reflexivity.
Qed.

Lemma LOD_loop_none (E : Env) (img : Mat) (points : list Point2f)
    (ls : list Z) :
  fold_left (LOD_step E img points) ls None = None.
Proof. induction ls as [|l ls IH]; cbn [fold_left]; [reflexivity|exact IH]. Qed.

(** The loop over the levels adds the level results to [out]. *)
Lemma LOD_loop (E : Env) (img : Mat) (points : list Point2f) (ls : list Z) :
  (forall l, In l ls -> (1 <= l)%Z) ->
  forall (out : Mat) (s : RandState E),
    match fold_left (LOD_step E img points) ls (Some (out, s)),
          level_results E img points ls s with
    | Some (out', s1), Some (os, s2) =>
        s1 = s2
        /\ (rows out' = rows out /\ cols out' = cols out
            /\ channels out' = channels out /\ depth out' = depth out)
        /\ forall y j,
             at_ out' y j = at_ out y j + Rsum (map (fun o => at_ o y j) os)
    | None, None => True
    | _, _ => False
    end.
Proof.
  induction ls as [|l ls IH]; intros Hls out s; cbn [fold_left level_results].
  - split; [reflexivity|]. split; [auto|]. intros y j. cbn. lra.
  - rewrite LOD_step_level by (apply Hls; now left).
    destruct (level_result E img points l s) as [[o s']|].
    + specialize (IH (fun l' H => Hls l' (or_intror H)) (mat_add out o) s').
      destruct (fold_left _ ls _) as [[out' s1]|],
               (level_results E img points ls s') as [[os s2]|];
        try exact IH.
      destruct IH as (Hs & Hext & Hat). split; [exact Hs|].
      split; [exact Hext|]. intros y j. rewrite Hat. cbn [map].
      rewrite Rsum_cons. cbn [at_ mat_add]. lra.
    + now rewrite LOD_loop_none.
Qed.

Lemma level_results_run (E : Env) (img : Mat) (points : list Point2f)
    (ls : list Z) :
  extents_ok E ->
  forall s, exists os s',
    level_results E img points ls s = Some (os, s')
    /\ length os = length ls.
Proof.
  intros He. induction ls as [|l ls IH]; intros s; cbn [level_results].
  - now exists [], s.
  - unfold level_result.
    destruct (pencilDrawing_run E
                (resize E img (0, 0)%Z (1 / 2 ^ Z.to_nat (l - 1))
                        (1 / 2 ^ Z.to_nat (l - 1)) INTER_CUBIC)
                (level_anchors points l) s He)
      as (o & s1 & Hrun & _). rewrite Hrun.
    destruct (IH s1) as (os & s2 & Hrest & Hlen). rewrite Hrest.
    eexists _, s2. split; [reflexivity|]. cbn [length]. now rewrite Hlen.
Qed.

(** C2. For [levels >= 1], [pencilDrawingLOD] returns the unweighted
    average over the levels [l = levels, ..., 1] of the single-scale
    result for the image resized by [1 / 2^(l-1)], with the anchor points
    scaled by the same factor, resized back to the extent of the input. *)
Theorem pencilDrawingLOD_average (E : Env) (img : Mat)
    (points : list Point2f) (levels : Z) (s : RandState E) :
  extents_ok E ->
  (1 <= levels)%Z ->
  exists out s' os,
    pencilDrawingLOD E img points levels s = Some (out, s')
    /\ level_results E img points (zrange_down levels 1) s = Some (os, s')
    /\ length os = Z.to_nat levels
    /\ rows out = rows img /\ cols out = cols img
    /\ channels out = channels img
    /\ forall y j, at_ out y j = LOD_reference os levels y j.
Proof.
  intros He Hlev.
  assert (Hls : forall l, In l (zrange_down levels 1) -> (1 <= l)%Z).
  { intros l Hl. unfold zrange_down in Hl. apply in_rev, in_zrange in Hl.
    lia. }
  destruct (level_results_run E img points (zrange_down levels 1) He s)
    as (os & s' & Hres & Hlen).
  pose proof (LOD_loop E img points (zrange_down levels 1) Hls
                (Mat_zeros (rows img) (cols img) CV_32F (channels img)) s)
    as Hloop.
  rewrite Hres in Hloop. unfold pencilDrawingLOD.
  destruct (fold_left _ _ _) as [[out s1]|]; [|contradiction].
  destruct Hloop as (Hs & (Hr & Hc & Hch & _) & Hat). subst s1.
  exists (mat_div out (IZR levels)), s', os.
  split; [reflexivity|]. split; [exact Hres|]. split.
  { rewrite Hlen. unfold zrange_down. rewrite length_rev, zrange_length.
    f_equal. lia. }
  cbn [mat_div rows cols channels at_]. cbn [Mat_zeros rows cols channels] in *.
  repeat (split; [assumption|]).
  intros y j. rewrite Hat. unfold LOD_reference. cbn [Mat_zeros at_].
  now rewrite Rplus_0_l.
Qed.

Lemma pencilDrawingLOD_average_witness :
  exists out s' os,
    pencilDrawingLOD Demo.env (Demo.flat 2 2 (1 / 2))
      [mkPoint 1 1; mkPoint (3 / 2) (1 / 2)] 2 Demo.init
    = Some (out, s')
    /\ level_results Demo.env (Demo.flat 2 2 (1 / 2))
         [mkPoint 1 1; mkPoint (3 / 2) (1 / 2)] (zrange_down 2 1)
         Demo.init = Some (os, s')
    /\ length os = Z.to_nat 2
    /\ rows out = rows (Demo.flat 2 2 (1 / 2))
    /\ cols out = cols (Demo.flat 2 2 (1 / 2))
    /\ channels out = channels (Demo.flat 2 2 (1 / 2))
    /\ forall y j, at_ out y j = LOD_reference os 2 y j.
Proof.
  apply (pencilDrawingLOD_average Demo.env (Demo.flat 2 2 (1 / 2))
           [mkPoint 1 1; mkPoint (3 / 2) (1 / 2)] 2 Demo.init).
  - exact Demo_extents_ok.
  - lia.
Defined.

Lemma scale_points_1 (points : list Point2f) : scale_points points 1 = points.
Proof.
  unfold scale_points. rewrite <- (map_id points) at 2.
  apply map_ext. intros [px py]. cbn. now rewrite !Rmult_1_r.
Qed.

Lemma LOD_one_level (E : Env) (img : Mat) (points : list Point2f)
    (s : RandState E) :
  (forall m, resize E m (0, 0)%Z 1 1 INTER_CUBIC = m) ->
  (forall m, resize E m (cols m, rows m) 0 0 INTER_CUBIC = m) ->
  pencilDrawingLOD E img points 1 s
  = match pencilDrawing E img points s with
    | Some (o, s') =>
        Some (mat_div
                (mat_add (Mat_zeros (rows img) (cols img) CV_32F
                                    (channels img)) o) 1, s')
    | None => None
    end.
Proof.
  intros Hscale Hsize. unfold pencilDrawingLOD.
  change (zrange_down 1 1) with [1%Z]. cbn [fold_left LOD_step].
  change (1 - 1)%Z with 0%Z. cbn [powerRZ].
  replace (1 / 1) with 1 by (unfold Rdiv; now rewrite Rinv_1, Rmult_1_r).
  rewrite Hscale, scale_points_1.
  destruct (pencilDrawing E img points s) as [[o s']|] eqn:Hrun;
    [|reflexivity].
  destruct (pencilDrawing_extent E img points s o s' Hrun) as (Hr & Hc & _).
  now rewrite <- Hr, <- Hc, Hsize.
Qed.

(** C7. When [cv::resize] returns an image that already has the requested
    extent as it is, the multi-scale render with one level is the
    single-scale render of the same image and anchor points from the same
    generator: the two calls fail together or return the same generator
    and matrices of the same extent, type and cell values; with
    collaborators that respect the extents both return. *)
Theorem pencilDrawingLOD_one_level (E : Env) (img : Mat)
    (points : list Point2f) (s : RandState E) :
  (forall m, resize E m (0, 0)%Z 1 1 INTER_CUBIC = m) ->
  (forall m, resize E m (cols m, rows m) 0 0 INTER_CUBIC = m) ->
  match pencilDrawingLOD E img points 1 s, pencilDrawing E img points s with
  | Some (o1, s1), Some (o2, s2) =>
      s1 = s2
      /\ rows o1 = rows o2 /\ cols o1 = cols o2
      /\ channels o1 = channels o2 /\ depth o1 = depth o2
      /\ forall y j, at_ o1 y j = at_ o2 y j
  | None, None => True
  | _, _ => False
  end
  /\ (extents_ok E ->
      exists o s', pencilDrawingLOD E img points 1 s = Some (o, s')).
Proof.
  intros Hscale Hsize. rewrite (LOD_one_level E img points s Hscale Hsize).
  split.
  - destruct (pencilDrawing E img points s) as [[o s']|] eqn:Hrun;
      [|exact I].
    destruct (pencilDrawing_extent E img points s o s' Hrun)
      as (Hr & Hc & Hch & Hd).
    cbn [mat_div mat_add Mat_zeros rows cols channels depth at_].
    repeat (split; [congruence|]).
    intros y j. unfold Rdiv. now rewrite Rinv_1, Rmult_1_r, Rplus_0_l.
  - intros He.
    destruct (pencilDrawing_run E img points s He) as (o & s' & Hrun & _).
    rewrite Hrun. eauto.
Qed.

Lemma Demo_resize_scale_one (m : Mat) :
  resize Demo.env m (0, 0)%Z 1 1 INTER_CUBIC = m.
Proof.
  cbn [resize Demo.env]. unfold Demo.resize. cbn [fst snd Z.eqb andb].
  now rewrite !Rmult_1_r, !cvRound_IZR, !Z.eqb_refl.
Qed.

Lemma Demo_resize_same_size (m : Mat) :
  resize Demo.env m (cols m, rows m) 0 0 INTER_CUBIC = m.
Proof.
  cbn [resize Demo.env]. unfold Demo.resize. cbn [fst snd].
  destruct (Z.eqb_spec (cols m) 0) as [Hc | Hc],
           (Z.eqb_spec (rows m) 0) as [Hr | Hr]; cbn [andb fst snd];
    rewrite ?Rmult_0_r, ?cvRound_IZR, ?Z.eqb_refl; try reflexivity.
  rewrite Hc, Hr. reflexivity.
Qed.

Lemma pencilDrawingLOD_one_level_witness :
  match pencilDrawingLOD Demo.env (Demo.flat 2 2 (1 / 2)) [] 1 Demo.init,
        pencilDrawing Demo.env (Demo.flat 2 2 (1 / 2)) [] Demo.init with
  | Some (o1, s1), Some (o2, s2) =>
      s1 = s2
      /\ rows o1 = rows o2 /\ cols o1 = cols o2
      /\ channels o1 = channels o2 /\ depth o1 = depth o2
      /\ forall y j, at_ o1 y j = at_ o2 y j
  | None, None => True
  | _, _ => False
  end
  /\ (extents_ok Demo.env ->
      exists o s',
        pencilDrawingLOD Demo.env (Demo.flat 2 2 (1 / 2)) [] 1 Demo.init
        = Some (o, s')).
Proof.
  apply (pencilDrawingLOD_one_level Demo.env (Demo.flat 2 2 (1 / 2)) []
           Demo.init).
  - exact Demo_resize_scale_one.
  - exact Demo_resize_same_size.
Defined.

(** * Further properties of the routines *)

(** ** quantizeOrientation *)

Lemma snap_idempotent (theta : R) : snap (snap theta) = snap theta.
Proof.
  rewrite (snap_eq (snap theta)), (snap_eq theta).
  pose proof PI_RGT_0 as Hpi.
  set (k := Zceil (theta / PI)).
  replace ((IZR k * PI - PI / 4) / PI) with (IZR k - 1 / 4)
    by (field; lra).
  rewrite (Zceil_eq k) by lra. reflexivity.
Qed.

Lemma snap_range (theta : R) :
  theta - PI / 4 <= snap theta < theta + 3 * PI / 4.
Proof.
  rewrite snap_eq. pose proof PI_RGT_0 as Hpi.
  destruct (Zceil_bound (theta / PI)) as [Hlo Hhi].
  assert (Ht : theta = theta / PI * PI) by (field; lra).
  split.
  - apply Rmult_le_compat_r with (r := PI) in Hhi; lra.
  - apply Rmult_lt_compat_r with (r := PI) in Hlo; lra.
Qed.

Lemma antidiagonal_shift (k : Z) :
  sin (IZR k * PI - PI / 4) + cos (IZR k * PI - PI / 4) = 0.
Proof.
  induction k as [|k IH|k IH] using Z.peano_ind.
  - replace (0 * PI - PI / 4) with (- (PI / 4)) by lra.
    rewrite sin_neg, cos_neg, sin_PI4, cos_PI4. lra.
  - rewrite succ_IZR.
    replace ((IZR k + 1) * PI - PI / 4) with (IZR k * PI - PI / 4 + PI)
      by lra.
    rewrite neg_sin, neg_cos. lra.
  - unfold Z.pred. rewrite plus_IZR. change (IZR (-1)) with (-1).
    replace (IZR k + -1) with (IZR k - 1) by lra.
    replace (IZR k * PI - PI / 4)
      with ((IZR k - 1) * PI - PI / 4 + PI) in IH by lra.
    rewrite neg_sin, neg_cos in IH. lra.
Qed.

Lemma one_pixel_far :
  IZR (Z.max (cols (one_pixel_store l_vfield))
             (rows (one_pixel_store l_vfield))) / 50
  < at_ (edge_distance Demo.env (rows (one_pixel_store l_vfield))
           (cols (one_pixel_store l_vfield)) (one_pixel_store l_edge)) 0 0.
Proof.
  change (one_pixel_store l_vfield) with (Demo.flat 1 1 0).
  change (one_pixel_store l_edge) with (Demo.flat 1 1 1).
  change (cols (Demo.flat 1 1 0)) with 1%Z.
  change (rows (Demo.flat 1 1 0)) with 1%Z.
  destruct (binarize_at 1 1 (convertTo_uchar (Demo.flat 1 1 1) 255))
    as [[Hr Hc] Hat].
  unfold edge_distance. cbn [distanceTransform Demo.env].
  unfold Demo.distanceTransform. cbn [at_].
  rewrite Hr, Hc. change (grid (rows _) (cols _)) with [(0, 0)%Z].
  cbn [filter fst snd]. rewrite Hat by lia.
  change (at_ (convertTo_uchar (Demo.flat 1 1 1) 255) 0 0)
    with (IZR (saturate_uchar (cvRound (255 * 1)))).
  rewrite mask_value_full, Reqb_false by lra. cbn [fold_right].
  change (Z.max 1 1) with 1%Z. lra.
Qed.

(** X1. Quantising twice is quantising once: when the edge map is a
    matrix other than the flow field, a second call of
    [quantizeOrientation] leaves the extent of the flow field and the
    angle of every pixel as the first call left them. *)
Theorem quantizeOrientation_idempotent (E : Env) (vfield edge : loc)
    (st : Store) (y x : Z) :
  edge <> vfield ->
  (0 <= y < rows (st vfield))%Z -> (0 <= x < cols (st vfield))%Z ->
  let st1 := quantizeOrientation E vfield edge st in
  let st2 := quantizeOrientation E vfield edge st1 in
  rows (st2 vfield) = rows (st1 vfield)
  /\ cols (st2 vfield) = cols (st1 vfield)
  /\ at_ (st2 vfield) y x = at_ (st1 vfield) y x.
Proof.
  intros Hne Hy Hx st1 st2.
  destruct (quantizeOrientation_extent E vfield edge st) as (Hr & Hc & _).
  destruct (quantizeOrientation_extent E vfield edge st1) as (Hr1 & Hc1 & _).
  fold st1 in Hr, Hc. fold st2 in Hr1, Hc1.
  split; [exact Hr1|]. split; [exact Hc1|].
  assert (He : st1 edge = st edge).
  { unfold st1. rewrite quantizeOrientation_store.
    destruct (Nat.eqb_spec edge vfield); [contradiction|reflexivity]. }
  assert (Hv : at_ (st1 vfield) y x
               = if Rltb (edge_threshold (st vfield))
                         (at_ (edge_distance E (rows (st vfield))
                                 (cols (st vfield)) (st edge)) y x)
                 then snap (at_ (st vfield) y x) else at_ (st vfield) y x)
    by (unfold st1; now apply quantizeOrientation_at).
  unfold st2. rewrite quantizeOrientation_at by (rewrite ?Hr, ?Hc; lia).
  unfold edge_threshold in *. rewrite Hr, Hc, He.
  destruct (Rltb _ _); [|reflexivity].
  rewrite Hv. apply snap_idempotent.
Qed.

Lemma quantizeOrientation_idempotent_witness :
  let st1 := quantizeOrientation Demo.env l_vfield l_edge one_pixel_store in
  let st2 := quantizeOrientation Demo.env l_vfield l_edge st1 in
  rows (st2 l_vfield) = rows (st1 l_vfield)
  /\ cols (st2 l_vfield) = cols (st1 l_vfield)
  /\ at_ (st2 l_vfield) 0 0 = at_ (st1 l_vfield) 0 0.
Proof.
  apply (quantizeOrientation_idempotent Demo.env l_vfield l_edge
           one_pixel_store 0 0).
  - discriminate.
  - cbn. lia.
  - cbn. lia.
Defined.

(** X2. The angle written over a far pixel lies on the anti-diagonal
    ([sin + cos = 0], whatever the angle was) and is the first such angle
    at or above [theta - pi/4]: it exceeds the old angle by less than
    [3 pi / 4] and falls short of it by at most [pi / 4]. *)
Theorem quantizeOrientation_far_direction (E : Env) (vfield edge : loc)
    (st : Store) (y x : Z) :
  (0 <= y < rows (st vfield))%Z -> (0 <= x < cols (st vfield))%Z ->
  IZR (Z.max (cols (st vfield)) (rows (st vfield))) / 50
  < at_ (edge_distance E (rows (st vfield)) (cols (st vfield)) (st edge))
        y x ->
  let theta := at_ (st vfield) y x in
  let theta' := at_ (quantizeOrientation E vfield edge st vfield) y x in
  sin theta' + cos theta' = 0
  /\ theta - PI / 4 <= theta' < theta + 3 * PI / 4.
Proof.
  intros Hy Hx Hfar theta theta'. unfold theta'.
  rewrite quantizeOrientation_at by assumption.
  unfold edge_threshold. rewrite Rltb_true by exact Hfar. fold theta.
  split; [|apply snap_range].
  rewrite snap_eq. apply antidiagonal_shift.
Qed.

Lemma quantizeOrientation_far_direction_witness :
  let theta := at_ (one_pixel_store l_vfield) 0 0 in
  let theta' :=
    at_ (quantizeOrientation Demo.env l_vfield l_edge one_pixel_store
           l_vfield) 0 0 in
  sin theta' + cos theta' = 0
  /\ theta - PI / 4 <= theta' < theta + 3 * PI / 4.
Proof.
  apply (quantizeOrientation_far_direction Demo.env l_vfield l_edge
           one_pixel_store 0 0).
  - cbn. lia.
  - cbn. lia.
  - exact one_pixel_far.
Defined.

Lemma cvRound_threshold (r : R) : (cvRound r < 192)%Z <-> r < 191.5.
Proof.
  unfold cvRound. cbv zeta. pose proof (Zfloor_bound r) as [Hl Hu].
  split.
  - intros H. destruct (Rlt_dec (r - IZR (Zfloor r)) (1 / 2)) as [Hd | Hd].
    + assert (IZR (Zfloor r) <= 191) by (apply IZR_le; lia). lra.
    + destruct (Rlt_dec (1 / 2) (r - IZR (Zfloor r))) as [Hd' | Hd'].
      * assert (IZR (Zfloor r) <= 190) by (apply IZR_le; lia). lra.
      * assert (Hhalf : r = IZR (Zfloor r) + 1 / 2) by lra.
        destruct (Z.even (Zfloor r)) eqn:Hev.
        -- assert (Hne : Zfloor r <> 191%Z)
             by (intros Heq; rewrite Heq in Hev; discriminate).
           assert (IZR (Zfloor r) <= 190) by (apply IZR_le; lia). lra.
        -- assert (IZR (Zfloor r) <= 190) by (apply IZR_le; lia). lra.
  - intros H.
    assert (Hf : (Zfloor r < 192)%Z) by (apply lt_IZR; lra).
    destruct (Rlt_dec (r - IZR (Zfloor r)) (1 / 2)) as [Hd | Hd];
      [exact Hf|].
    assert (Hf' : (Zfloor r < 191)%Z) by (apply lt_IZR; lra).
    destruct (Rlt_dec (1 / 2) (r - IZR (Zfloor r))); [lia|].
    destruct (Z.even (Zfloor r)); lia.
Qed.

(** X3. Inside the image the binarised mask holds only 0 and 1: it is 0
    wherever the edge strength is at most 0.75 and 1 wherever it is at
    least 0.752.  (Between the two the converted value is within a
    rounding step of 191.5, and the rounding of the product [255 e]
    decides.) *)
Theorem binarize_threshold (edge : Mat) (h w y x : Z) :
  (0 <= y < h)%Z -> (0 <= x < w)%Z ->
  let m := at_ (binarize h w (convertTo_uchar edge 255)) y x in
  (m = 0 \/ m = 1)
  /\ (at_ edge y x <= 0.75 -> m = 0)
  /\ (0.752 <= at_ edge y x -> m = 1).
Proof.
  intros Hy Hx m. unfold m.
  destruct (binarize_at h w (convertTo_uchar edge 255)) as [_ Hat].
  rewrite Hat by assumption. cbn [at_ convertTo_uchar]. unfold mask_value.
  set (r := 255 * at_ edge y x).
  split; [destruct (Rltb _ 192); auto|]. split; intros He.
  - assert (Hr : r < 191.5) by (unfold r; lra).
    apply cvRound_threshold in Hr. rewrite Rltb_true; [reflexivity|].
    apply IZR_lt. unfold saturate_uchar. lia.
  - assert (Hc : ~ (cvRound r < 192)%Z).
    { intros H. apply cvRound_threshold in H. unfold r in H. lra. }
    rewrite Rltb_false; [reflexivity|].
    apply IZR_le. unfold saturate_uchar. lia.
Qed.

Lemma binarize_threshold_witness :
  let m := at_ (binarize 1 1 (convertTo_uchar (Demo.flat 1 1 1) 255)) 0 0 in
  (m = 0 \/ m = 1)
  /\ (at_ (Demo.flat 1 1 1) 0 0 <= 0.75 -> m = 0)
  /\ (0.752 <= at_ (Demo.flat 1 1 1) 0 0 -> m = 1).
Proof.
  apply (binarize_threshold (Demo.flat 1 1 1) 1 1 0 0); lia.
Defined.

(** ** LIConv *)

Lemma Rsum_map_le {K : Type} (f g : K -> R) (ks : list K) :
  (forall k, In k ks -> f k <= g k) ->
  Rsum (map f ks) <= Rsum (map g ks).
Proof.
  induction ks as [|k ks IH]; intros H; cbn [map]; [cbn; lra|].
  rewrite !Rsum_cons.
  apply Rplus_le_compat; [apply H; now left|].
  apply IH. intros k' Hk'. apply H. now right.
Qed.

Lemma Rsum_map_nonneg {K : Type} (f : K -> R) (ks : list K) :
  (forall k, In k ks -> 0 <= f k) -> 0 <= Rsum (map f ks).
Proof.
  induction ks as [|k ks IH]; intros H; cbn [map]; [cbn; lra|].
  rewrite Rsum_cons.
  apply Rplus_le_le_0_compat; [apply H; now left|].
  apply IH. intros k' Hk'. apply H. now right.
Qed.

Lemma Rsum_map_scal {K : Type} (a : R) (f : K -> R) (ks : list K) :
  Rsum (map (fun k => a * f k) ks) = a * Rsum (map f ks).
Proof.
  induction ks as [|k ks IH]; cbn [map]; [cbn; lra|].
  rewrite !Rsum_cons, IH. lra.
Qed.

Lemma Rsum_map_ext_in {K : Type} (f g : K -> R) (ks : list K) :
  (forall k, In k ks -> f k = g k) -> Rsum (map f ks) = Rsum (map g ks).
Proof. intros H. f_equal. now apply map_ext_in. Qed.

Lemma in_image_inv (w h x y : Z) :
  in_image w h x y = true -> (0 <= x < w)%Z /\ (0 <= y < h)%Z.
Proof.
  unfold in_image. rewrite !andb_true_iff, !Z.leb_le, !Z.ltb_lt. lia.
Qed.

Lemma trunc_between (a b : Z) (r : R) :
  IZR a <= r <= IZR b -> (a <= trunc r <= b)%Z.
Proof.
  intros [Ha Hb]. unfold trunc. destruct (Rle_dec 0 r).
  - pose proof (Zfloor_bound r) as [Hl _]. split.
    + now apply Zfloor_lub.
    + apply le_IZR. lra.
  - pose proof (Zceil_bound r) as [_ Hu]. split.
    + apply le_IZR. lra.
    + rewrite <- (Z.opp_involutive b). unfold Zceil.
      apply Z.opp_le_mono. rewrite !Z.opp_involutive.
      apply Zfloor_lub. rewrite opp_IZR. lra.
Qed.

Lemma step_within_seven (s : Z) (v : R) :
  (-24 <= s < 25)%Z -> -1 <= v <= 1 ->
  -7 <= 7 / 24 * IZR s * v <= 7.
Proof.
  intros Hs [Hv1 Hv2].
  assert (Hs1 : -24 <= IZR s) by (apply IZR_le; lia).
  assert (Hs2 : IZR s <= 24) by (apply IZR_le; lia).
  set (u := 7 / 24 * IZR s).
  assert (Hu : -7 <= u <= 7) by (unfold u; lra).
  pose proof (Rmult_le_pos (7 - u) (1 - v) ltac:(lra) ltac:(lra)).
  pose proof (Rmult_le_pos (7 + u) (1 + v) ltac:(lra) ltac:(lra)).
  pose proof (Rmult_le_pos (7 - u) (1 + v) ltac:(lra) ltac:(lra)).
  pose proof (Rmult_le_pos (7 + u) (1 - v) ltac:(lra) ltac:(lra)).
  split; lra.
Qed.

Section PixelBounds.

Variable E : Env.
Variables (B etf noise : Mat) (width height dim : Z) (y x : Z).

Lemma in_ref_samples (theta : R) (p : Z * Z) :
  In p (ref_samples width height y x theta) ->
  ((0 <= fst p < width)%Z /\ (0 <= snd p < height)%Z)
  /\ (x - 7 <= fst p <= x + 7)%Z /\ (y - 7 <= snd p <= y + 7)%Z.
Proof.
  unfold ref_samples. rewrite filter_In. intros [Hin Himg].
  split; [now apply in_image_inv|].
  apply in_map_iff in Hin as [s [<- Hs]]. apply in_zrange in Hs.
  unfold ref_landing. cbv zeta. cbn [fst snd].
  pose proof (step_within_seven s (cos theta) Hs (COS_bound theta)) as Hc.
  pose proof (step_within_seven s (sin theta) Hs (SIN_bound theta)) as Hn.
  split.
  - replace (x - 7)%Z with (x + -7)%Z by lia.
    apply trunc_between. rewrite !plus_IZR. lra.
  - replace (y - 7)%Z with (y + -7)%Z by lia.
    apply trunc_between. rewrite !plus_IZR. lra.
Qed.

Hypothesis gauss_pos : forall d sigma, 0 < gauss E d sigma.

Lemma ref_sums_bounded (t_i : R) (c : Z) :
  (forall yy xx, (0 <= yy < height)%Z -> (0 <= xx < width)%Z ->
                 0 <= at_ noise yy xx <= 1) ->
  0 <= at_ B y (x * dim + c) <= 1 ->
  0 <= ref_sum E B etf noise width height dim y x t_i c
  <= ref_weight E B etf width height dim y x t_i c.
Proof.
  intros Hnoise HB.
  assert (Hs : forall theta,
    0 <= ref_s_sum E B noise width height dim y x theta c
    <= ref_w_sum E B width height dim y x theta c).
  { intros theta. unfold ref_s_sum, ref_w_sum. split.
    - apply Rsum_map_nonneg. intros p Hp.
      destruct (in_ref_samples theta p Hp) as [[Hx Hy] _].
      pose proof (Hnoise _ _ Hy Hx). pose proof (gauss_pos
        (at_ B (snd p) (fst p * dim + c) - at_ B y (x * dim + c)) 2).
      unfold ref_G2. apply Rmult_le_pos; [apply Rmult_le_pos|]; lra.
    - apply Rsum_map_le. intros p Hp.
      destruct (in_ref_samples theta p Hp) as [[Hx Hy] _].
      pose proof (Hnoise _ _ Hy Hx). pose proof (gauss_pos
        (at_ B (snd p) (fst p * dim + c) - at_ B y (x * dim + c)) 2).
      unfold ref_G2.
      set (G := gauss E _ 2) in *. set (n := at_ noise _ _) in *.
      set (b := at_ B y _) in *.
      assert (Hnb : n * (1 - b) <= 1).
      { replace 1 with (1 * 1) at 2 by ring.
        apply Rmult_le_compat; lra. }
      rewrite Rmult_assoc. rewrite <- (Rmult_1_r G) at 2.
      apply Rmult_le_compat_l; lra. }
  unfold ref_sum, ref_weight. split.
  - apply Rsum_map_nonneg. intros t _.
    apply Rmult_le_pos; [left; apply gauss_pos|apply Hs].
  - apply Rsum_map_le. intros t _.
    apply Rmult_le_compat_l; [left; apply gauss_pos|apply Hs].
Qed.

Lemma ref_sum_uniform (nu t_i : R) (c : Z) :
  (forall yy xx, (0 <= yy < height)%Z -> (0 <= xx < width)%Z ->
                 at_ noise yy xx = nu) ->
  ref_sum E B etf noise width height dim y x t_i c
  = nu * (1 - at_ B y (x * dim + c))
    * ref_weight E B etf width height dim y x t_i c.
Proof.
  intros Hnoise. unfold ref_sum, ref_weight.
  rewrite <- Rsum_map_scal. apply Rsum_map_ext_in. intros t _.
  unfold ref_s_sum, ref_w_sum.
  rewrite (Rsum_map_ext_in _
             (fun p => nu * (1 - at_ B y (x * dim + c))
                       * ref_G2 E B dim y x c p)).
  - rewrite Rsum_map_scal. ring.
  - intros p Hp. destruct (in_ref_samples _ p Hp) as [[Hx Hy] _].
    rewrite (Hnoise _ _ Hy Hx). ring.
Qed.

End PixelBounds.

Lemma ref_sum_local (E : Env) (B etf noise noise' : Mat)
    (width height dim y x : Z) (t_i : R) (c : Z) :
  (forall yy xx, (0 <= yy < height)%Z -> (0 <= xx < width)%Z ->
                 (y - 7 <= yy <= y + 7)%Z -> (x - 7 <= xx <= x + 7)%Z ->
                 at_ noise yy xx = at_ noise' yy xx) ->
  ref_sum E B etf noise width height dim y x t_i c
  = ref_sum E B etf noise' width height dim y x t_i c.
Proof.
  intros Hagree. unfold ref_sum. apply Rsum_map_ext_in. intros t _.
  f_equal. unfold ref_s_sum. apply Rsum_map_ext_in. intros p Hp.
  destruct (in_ref_samples width height y x _ p Hp)
    as [[Hx Hy] [Hwx Hwy]].
  now rewrite (Hagree _ _ Hy Hx Hwy Hwx).
Qed.

(** The cells of the matrix that a run of [LIConv] has returned. *)
Lemma LIConv_cells (E : Env) (img etf noise : Mat) (ratio : R)
    (s : RandState E) (lic : Mat) (s' : RandState E) :
  LIConv E img etf noise ratio s = Some (lic, s') ->
  forall y x c,
    (0 <= y < rows img)%Z -> (0 <= x < cols img)%Z ->
    (0 <= c < channels img)%Z ->
    let B := bilateralFilter E img 19 (1 / 2) 15 in
    let t_i := ref_jitter (draw_at E (gen s) (Z.to_nat (y * cols img + x))) in
    at_ lic y (x * channels img + c)
    = 1 - ref_sum E B etf noise (cols img) (rows img) (channels img) y x t_i c
          / (ratio
             * ref_weight E B etf (cols img) (rows img) (channels img)
                          y x t_i c).
Proof.
  intros Hrun y x c Hy Hx Hc B t_i. apply LIConv_inv in Hrun.
  destruct (grid_split (rows img) (cols img) y x Hy Hx)
    as (pre & post & Hg & Hlen & Hnin).
  replace lic with (fst (lic, s')) by reflexivity. rewrite <- Hrun, Hg.
  rewrite (scan_at E B etf noise (cols img) (rows img) (channels img)
             ratio pre post y x c Hc Hnin).
  cbn [snd rand_getRNG gen]. rewrite Hlen.
  destruct (pixel_accum_reference E B etf noise (cols img) (rows img)
              (channels img) y x
              (jitter (fst (randInt E 5
                 (gen_after E (Z.to_nat (y * cols img + x))
                    (getRNG E (gen s)))))) c Hc) as [Hs Hw].
  rewrite Hs, Hw. reflexivity.
Qed.

(** X5. With positive Gaussian weights and a positive [ratio], a noise
    field with values in [0, 1] inside the image and smoothed tones in
    [0, 1], every value that [LIConv] writes lies between
    [1 - 1 / ratio] and 1. *)
Theorem LIConv_output_range (E : Env) (img etf noise : Mat) (ratio : R)
    (s : RandState E) (lic : Mat) (s' : RandState E) :
  LIConv E img etf noise ratio s = Some (lic, s') ->
  (forall d sigma, 0 < gauss E d sigma) ->
  0 < ratio ->
  (forall yy xx, (0 <= yy < rows img)%Z -> (0 <= xx < cols img)%Z ->
                 0 <= at_ noise yy xx <= 1) ->
  (forall yy j, 0 <= at_ (bilateralFilter E img 19 (1 / 2) 15) yy j <= 1) ->
  forall y x c,
    (0 <= y < rows img)%Z -> (0 <= x < cols img)%Z ->
    (0 <= c < channels img)%Z ->
    1 - 1 / ratio <= at_ lic y (x * channels img + c) <= 1.
Proof.
  intros Hrun Hg Hratio Hnoise HB y x c Hy Hx Hc.
  rewrite (LIConv_cells E img etf noise ratio s lic s' Hrun y x c Hy Hx Hc).
  cbv zeta.
  set (B := bilateralFilter E img 19 (1 / 2) 15).
  set (t_i := ref_jitter _).
  pose proof (ref_sums_bounded E B etf noise (cols img) (rows img)
                (channels img) y x Hg t_i c Hnoise (HB _ _)) as [Hs0 Hsw].
  pose proof (ref_weight_pos E B etf (cols img) (rows img) (channels img)
                y x t_i c Hg Hy Hx) as Hw.
  set (S := ref_sum _ _ _ _ _ _ _ _ _ _ _) in *.
  set (W := ref_weight _ _ _ _ _ _ _ _ _ _) in *.
  assert (Hrw : 0 < ratio * W) by now apply Rmult_lt_0_compat.
  assert (H0 : 0 <= S / (ratio * W)).
  { apply Rmult_le_pos; [exact Hs0|]. left. now apply Rinv_0_lt_compat. }
  assert (H1 : S / (ratio * W) <= 1 / ratio).
  { apply Rmult_le_reg_r with (ratio * W); [exact Hrw|].
    unfold Rdiv. rewrite Rmult_assoc, Rinv_l by lra.
    replace (1 * / ratio * (ratio * W)) with W by (field; lra). lra. }
  lra.
Qed.

(** X6. A pixel whose smoothed tone is 1 in a channel is written as 1
    in that channel, whatever the noise, the flow field and the jitter
    (with positive Gaussian weights and a positive [ratio]). *)
Theorem LIConv_white_tone (E : Env) (img etf noise : Mat) (ratio : R)
    (s : RandState E) (lic : Mat) (s' : RandState E) (y x c : Z) :
  LIConv E img etf noise ratio s = Some (lic, s') ->
  (forall d sigma, 0 < gauss E d sigma) ->
  0 < ratio ->
  (0 <= y < rows img)%Z -> (0 <= x < cols img)%Z ->
  (0 <= c < channels img)%Z ->
  at_ (bilateralFilter E img 19 (1 / 2) 15) y (x * channels img + c) = 1 ->
  at_ lic y (x * channels img + c) = 1.
Proof.
  intros Hrun Hg Hratio Hy Hx Hc HB.
  rewrite (LIConv_cells E img etf noise ratio s lic s' Hrun y x c Hy Hx Hc).
  cbv zeta.
  assert (Hz : forall t_i,
    ref_sum E (bilateralFilter E img 19 (1 / 2) 15) etf noise (cols img)
            (rows img) (channels img) y x t_i c = 0).
  { intros t_i. unfold ref_sum.
    rewrite (Rsum_map_ext_in _ (fun _ => 0 * 0)).
    - rewrite Rsum_map_scal. ring.
    - intros t _. unfold ref_s_sum.
      rewrite (Rsum_map_ext_in _ (fun _ => 0 * 0)).
      + rewrite Rsum_map_scal. ring.
      + intros p _. rewrite HB. ring. }
  rewrite Hz. unfold Rdiv. ring.
Qed.

(** X7. On a noise field that has the same value [nu] at every pixel of
    the image, [LIConv] is a pure tone mapping: every output value is
    [1 - nu * (1 - tone) / ratio], independent of the flow field and of
    the random draws; zero noise gives a white image. *)
Theorem LIConv_uniform_noise (E : Env) (img etf noise : Mat) (ratio nu : R)
    (s : RandState E) (lic : Mat) (s' : RandState E) :
  LIConv E img etf noise ratio s = Some (lic, s') ->
  (forall d sigma, 0 < gauss E d sigma) ->
  0 < ratio ->
  (forall yy xx, (0 <= yy < rows img)%Z -> (0 <= xx < cols img)%Z ->
                 at_ noise yy xx = nu) ->
  forall y x c,
    (0 <= y < rows img)%Z -> (0 <= x < cols img)%Z ->
    (0 <= c < channels img)%Z ->
    at_ lic y (x * channels img + c)
    = 1 - nu * (1 - at_ (bilateralFilter E img 19 (1 / 2) 15) y
                        (x * channels img + c)) / ratio.
Proof.
  intros Hrun Hg Hratio Hnoise y x c Hy Hx Hc.
  rewrite (LIConv_cells E img etf noise ratio s lic s' Hrun y x c Hy Hx Hc).
  cbv zeta. rewrite (ref_sum_uniform _ _ _ _ _ _ _ _ _ nu) by exact Hnoise.
  pose proof (ref_weight_pos E (bilateralFilter E img 19 (1 / 2) 15) etf
                (cols img) (rows img) (channels img) y x
                (ref_jitter (draw_at E (gen s) (Z.to_nat (y * cols img + x))))
                c Hg Hy Hx) as Hw.
  field. split; lra.
Qed.

(** X8. The kernel of [LIConv] has a support of 15 by 15 pixels: two
    runs on noise fields that agree on the pixels of the image within 7
    rows and 7 columns of a pixel write the same values at that pixel. *)
Theorem LIConv_local (E : Env) (img etf noise noise' : Mat) (ratio : R)
    (s : RandState E) (lic lic' : Mat) (s1 s2 : RandState E) (y x c : Z) :
  LIConv E img etf noise ratio s = Some (lic, s1) ->
  LIConv E img etf noise' ratio s = Some (lic', s2) ->
  (0 <= y < rows img)%Z -> (0 <= x < cols img)%Z ->
  (0 <= c < channels img)%Z ->
  (forall yy xx, (0 <= yy < rows img)%Z -> (0 <= xx < cols img)%Z ->
                 (y - 7 <= yy <= y + 7)%Z -> (x - 7 <= xx <= x + 7)%Z ->
                 at_ noise yy xx = at_ noise' yy xx) ->
  at_ lic y (x * channels img + c) = at_ lic' y (x * channels img + c).
Proof.
  intros Hrun Hrun' Hy Hx Hc Hagree.
  rewrite (LIConv_cells E img etf noise ratio s lic s1 Hrun y x c Hy Hx Hc).
  rewrite (LIConv_cells E img etf noise' ratio s lic' s2 Hrun' y x c
             Hy Hx Hc).
  cbv zeta. now rewrite (ref_sum_local E _ etf noise noise' _ _ _ _ _ _ _
                           Hagree).
Qed.

Lemma LIConv_gen (E : Env) (img etf noise : Mat) (ratio : R)
    (s : RandState E) (lic : Mat) (s' : RandState E) :
  LIConv E img etf noise ratio s = Some (lic, s') ->
  gen s' = gen_after E (Z.to_nat (rows img) * Z.to_nat (cols img))
                     (getRNG E (gen s)).
Proof.
  intros Hrun. apply LIConv_inv in Hrun.
  destruct (scan_state E (bilateralFilter E img 19 (1 / 2) 15) etf noise
              (cols img) (rows img) (channels img) ratio
              (grid (rows img) (cols img))
              (Mat_zeros (rows img) (cols img) (depth img) (channels img),
               rand_getRNG E s)) as [Hg _].
  rewrite Hrun in Hg. cbn [snd rand_getRNG gen] in Hg.
  now rewrite grid_length in Hg.
Qed.

(** X9. A run of [LIConv] leaves the generator exactly one draw of
    [randInt(5)] per pixel after [getRNG], and the matrix it returns has
    the depth of the image. *)
Theorem LIConv_generator (E : Env) (img etf noise : Mat) (ratio : R)
    (s : RandState E) (lic : Mat) (s' : RandState E) :
  LIConv E img etf noise ratio s = Some (lic, s') ->
  gen s' = gen_after E (Z.to_nat (rows img) * Z.to_nat (cols img))
                     (getRNG E (gen s))
  /\ depth lic = depth img.
Proof.
  intros Hrun. split; [now apply LIConv_gen in Hrun|].
  now destruct (LIConv_extent E img etf noise ratio s lic s' Hrun)
    as (_ & _ & _ & Hd).
Qed.

Lemma demo_run_ok (v nu : R) :
  LIConv Demo.env (Demo.flat 1 2 v) (Demo.flat 1 2 0) (Demo.flat 1 2 nu)
         0.3 Demo.init
  = Some (fst (demo_run v nu), snd (demo_run v nu)).
Proof.
  rewrite LIConv_run by reflexivity. now rewrite <- surjective_pairing.
Qed.

Lemma LIConv_output_range_witness :
  1 - 1 / 0.3 <= at_ (fst (demo_run (1 / 2) 1)) 0 (1 * 1 + 0) <= 1.
Proof.
  apply (LIConv_output_range Demo.env (Demo.flat 1 2 (1 / 2))
           (Demo.flat 1 2 0) (Demo.flat 1 2 1) 0.3 Demo.init
           (fst (demo_run (1 / 2) 1)) (snd (demo_run (1 / 2) 1))).
  - apply demo_run_ok.
  - exact Demo_gauss_pos.
  - lra.
  - intros yy xx _ _. cbn. lra.
  - intros yy j. cbn. lra.
  - cbn. lia.
  - cbn. lia.
  - cbn. lia.
Defined.

Lemma LIConv_white_tone_witness :
  at_ (fst (demo_run 1 1)) 0 (1 * 1 + 0) = 1.
Proof.
  apply (LIConv_white_tone Demo.env (Demo.flat 1 2 1) (Demo.flat 1 2 0)
           (Demo.flat 1 2 1) 0.3 Demo.init
           (fst (demo_run 1 1)) (snd (demo_run 1 1)) 0 1 0).
  - apply demo_run_ok.
  - exact Demo_gauss_pos.
  - lra.
  - cbn. lia.
  - cbn. lia.
  - cbn. lia.
  - reflexivity.
Defined.

Lemma LIConv_uniform_noise_witness :
  at_ (fst (demo_run (1 / 2) 1)) 0 (1 * 1 + 0)
  = 1 - 1 * (1 - at_ (Demo.flat 1 2 (1 / 2)) 0 (1 * 1 + 0)) / 0.3.
Proof.
  apply (LIConv_uniform_noise Demo.env (Demo.flat 1 2 (1 / 2))
           (Demo.flat 1 2 0) (Demo.flat 1 2 1) 0.3 1 Demo.init
           (fst (demo_run (1 / 2) 1)) (snd (demo_run (1 / 2) 1))).
  - apply demo_run_ok.
  - exact Demo_gauss_pos.
  - lra.
  - intros yy xx _ _. reflexivity.
  - cbn. lia.
  - cbn. lia.
  - cbn. lia.
Defined.

Lemma demo_wide_run_ok (noise : Mat) :
  LIConv_assert (Demo.flat 1 20 (1 / 2)) noise = true ->
  LIConv Demo.env (Demo.flat 1 20 (1 / 2)) (Demo.flat 1 20 0) noise
         0.3 Demo.init
  = Some (fst (demo_wide_run noise), snd (demo_wide_run noise)).
Proof.
  intros Hn. rewrite LIConv_run by (exact Hn || reflexivity).
  now rewrite <- surjective_pairing.
Qed.

Lemma LIConv_local_witness :
  at_ (Demo.flat 1 20 1) 0 19 <> at_ Demo.near_noise 0 19
  /\ at_ (fst (demo_wide_run (Demo.flat 1 20 1))) 0 (0 * 1 + 0)
     = at_ (fst (demo_wide_run Demo.near_noise)) 0 (0 * 1 + 0).
Proof.
  split; [cbn; lra|].
  apply (LIConv_local Demo.env (Demo.flat 1 20 (1 / 2)) (Demo.flat 1 20 0)
           (Demo.flat 1 20 1) Demo.near_noise 0.3 Demo.init
           (fst (demo_wide_run (Demo.flat 1 20 1)))
           (fst (demo_wide_run Demo.near_noise))
           (snd (demo_wide_run (Demo.flat 1 20 1)))
           (snd (demo_wide_run Demo.near_noise)) 0 0 0).
  - apply demo_wide_run_ok. reflexivity.
  - apply demo_wide_run_ok. reflexivity.
  - cbn. lia.
  - cbn. lia.
  - cbn. lia.
  - intros yy xx _ _ _ Hwin. cbn.
    destruct (Z.leb_spec xx 7); [reflexivity|lia].
Defined.

Lemma LIConv_generator_witness :
  gen (snd (demo_run (1 / 2) 1))
  = gen_after Demo.env (Z.to_nat 1 * Z.to_nat 2)
              (getRNG Demo.env (gen Demo.init))
  /\ depth (fst (demo_run (1 / 2) 1)) = CV_32F.
Proof.
  apply (LIConv_generator Demo.env (Demo.flat 1 2 (1 / 2))
           (Demo.flat 1 2 0) (Demo.flat 1 2 1) 0.3 Demo.init
           (fst (demo_run (1 / 2) 1)) (snd (demo_run (1 / 2) 1))).
  apply demo_run_ok.
Defined.

(** ** The noise field, in general *)

Lemma stamp_loop_outside (r : R) (points : list Point2f) (y x : Z) :
  forall a : Mat * R,
    in_image (cols (fst a)) (rows (fst a)) x y = false ->
    at_ (fst (fold_left (stamp r) points a)) y x = at_ (fst a) y x.
Proof.
  induction points as [|p ps IH]; intros a Hout; cbn [fold_left];
    [reflexivity|].
  rewrite IH by exact Hout. cbn [stamp fst].
  rewrite rectangle_at, Hout. now rewrite andb_false_r.
Qed.

Lemma trunc_small (r : R) : -1 < r < 1 -> trunc r = 0%Z.
Proof.
  intros [Hl Hu]. unfold trunc. destruct (Rle_dec 0 r).
  - apply Zfloor_eq. lra.
  - apply Zceil_eq. lra.
Qed.

(** The cells of the field that the stamping loop leaves. *)
Lemma stamped_cells (E : Env) (W H : Z) (gray : Mat)
    (points : list Point2f) (g : Gen E) :
  points <> [] ->
  (Z.of_nat (length points) < 2147483648)%Z ->
  let noise := fst (fst (composeNoise E W H gray points g)) in
  (rows noise = H /\ cols noise = W)
  /\ forall y x,
       (In (y, x) (map stamped_pixel points) ->
        in_image W H x y = true -> at_ noise y x = 1)
       /\ (~ In (y, x) (map stamped_pixel points)
           \/ in_image W H x y = false -> at_ noise y x = 0).
Proof.
  intros Hne Hk noise. unfold noise.
  rewrite stamping_run by (try assumption; lia). cbn [fst].
  destruct (stamp_loop
              (1.2 * IZR (Z.of_nat (length points)) / IZR (int_mul W H))
              points (Mat_zeros H W CV_32F 1, 1))
    as ((Hr & Hc & _) & Hat & _).
  cbn [fst Mat_zeros rows cols at_] in Hr, Hc, Hat.
  split; [split; assumption|]. intros y x.
  destruct (Hat y x) as [H1 H0]. split; [exact H1|].
  intros [Hnin | Hout]; [now apply H0|].
  now rewrite stamp_loop_outside.
Qed.

(** X10. With a non-empty list of anchor points the noise field is 1 at
    the pixels of the image on which an anchor is stamped (its coordinates
    converted to [int]) and 0 at every other cell: anchors stamped outside
    the image are ignored, repeated anchors count once, and [ratio] is
    [1.2 * k / (W * H)] for the [k] anchors given, not for the cells
    set. *)
Theorem composeNoise_stamps (E : Env) (W H : Z) (gray : Mat)
    (points : list Point2f) (g : Gen E) :
  points <> [] ->
  (Z.of_nat (length points) < 2147483648)%Z ->
  let noise := fst (fst (composeNoise E W H gray points g)) in
  let ratio := snd (fst (composeNoise E W H gray points g)) in
  (forall y x,
     (In (y, x) (map stamped_pixel points) ->
      in_image W H x y = true -> at_ noise y x = 1)
     /\ (~ In (y, x) (map stamped_pixel points)
         \/ in_image W H x y = false -> at_ noise y x = 0))
  /\ ratio = 1.2 * IZR (Z.of_nat (length points)) / IZR (int_mul W H)
  /\ snd (composeNoise E W H gray points g) = g.
Proof.
  intros Hne Hk noise ratio.
  split; [apply (stamped_cells E W H gray points g Hne Hk)|].
  unfold ratio. rewrite stamping_run by (try assumption; lia).
  cbn [fst snd]. split; [|reflexivity].
  now destruct (stamp_loop
                  (1.2 * IZR (Z.of_nat (length points))
                   / IZR (int_mul W H))
                  points (Mat_zeros H W CV_32F 1, 1)) as (_ & _ & Hr);
    apply Hr.
Qed.

Lemma composeNoise_stamps_witness :
  let points := [mkPoint (1 / 2) (1 / 2); mkPoint 5 5] in
  let noise :=
    fst (fst (composeNoise Demo.env 2 1 (Demo.flat 1 2 0) points 0%nat)) in
  let ratio :=
    snd (fst (composeNoise Demo.env 2 1 (Demo.flat 1 2 0) points 0%nat)) in
  (forall y x,
     (In (y, x) (map stamped_pixel points) ->
      in_image 2 1 x y = true -> at_ noise y x = 1)
     /\ (~ In (y, x) (map stamped_pixel points)
         \/ in_image 2 1 x y = false -> at_ noise y x = 0))
  /\ ratio = 1.2 * IZR (Z.of_nat (length points)) / IZR (int_mul 2 1)
  /\ snd (composeNoise Demo.env 2 1 (Demo.flat 1 2 0) points 0%nat) = 0%nat.
Proof.
  intros points.
  apply (composeNoise_stamps Demo.env 2 1 (Demo.flat 1 2 0) points 0%nat).
  - discriminate.
  - cbn. lia.
Defined.

(** X11. The conversion to [int] truncates toward zero: an anchor whose
    two coordinates lie strictly between -1 and 1 is stamped on the pixel
    of row 0 and column 0, also when a coordinate is negative and the
    point lies outside the image. *)
Theorem composeNoise_corner (E : Env) (W H : Z) (gray : Mat)
    (points : list Point2f) (g : Gen E) (p : Point2f) :
  (0 < W)%Z -> (0 < H)%Z ->
  (Z.of_nat (length points) < 2147483648)%Z ->
  In p points ->
  -1 < pt_x p < 1 -> -1 < pt_y p < 1 ->
  at_ (fst (fst (composeNoise E W H gray points g))) 0 0 = 1.
Proof.
  intros HW HH Hk Hp Hx Hy.
  assert (Hne : points <> []) by (intros ->; contradiction).
  destruct (stamped_cells E W H gray points g Hne Hk) as [_ Hat].
  destruct (Hat 0%Z 0%Z) as [H1 _]. apply H1.
  - apply in_map_iff. exists p. split; [|exact Hp].
    unfold stamped_pixel. now rewrite !trunc_small.
  - apply in_image_true; lia.
Qed.

Lemma composeNoise_corner_witness :
  at_ (fst (fst (composeNoise Demo.env 2 1 (Demo.flat 1 2 0)
                   [mkPoint (- (1 / 2)) (- (1 / 4))] 0%nat))) 0 0 = 1.
Proof.
  apply (composeNoise_corner Demo.env 2 1 (Demo.flat 1 2 0)
           [mkPoint (- (1 / 2)) (- (1 / 4))] 0%nat
           (mkPoint (- (1 / 2)) (- (1 / 4)))).
  - lia.
  - lia.
  - cbn. lia.
  - now left.
  - cbn. lra.
  - cbn. lra.
Defined.

(** X12. The noise field of [k] anchor points never has more than [k]
    nonzero cells. *)
Theorem composeNoise_count_le (E : Env) (W H : Z) (gray : Mat)
    (points : list Point2f) (g : Gen E) :
  points <> [] ->
  (Z.of_nat (length points) < 2147483648)%Z ->
  (count_nonzero (fst (fst (composeNoise E W H gray points g)))
   <= length points)%nat.
Proof.
  intros Hne Hk.
  destruct (stamped_cells E W H gray points g Hne Hk) as [[Hr Hc] Hat].
  unfold count_nonzero. rewrite Hr, Hc.
  rewrite <- (length_map stamped_pixel points).
  apply NoDup_incl_length; [apply NoDup_filter, NoDup_grid|].
  intros [y x] Hin. apply filter_In in Hin as [_ Hnz]. cbn [fst snd] in Hnz.
  destruct (in_dec pixel_eq_dec (y, x) (map stamped_pixel points))
    as [Hq | Hq]; [exact Hq|].
  destruct (Hat y x) as [_ H0]. rewrite H0 in Hnz by now left.
  unfold Reqb in Hnz. destruct (Req_dec_T 0 0); [discriminate|congruence].
Qed.

Lemma composeNoise_count_le_witness :
  (count_nonzero
     (fst (fst (composeNoise Demo.env 2 1 (Demo.flat 1 2 0)
                  [mkPoint 0 0; mkPoint (1 / 2) (1 / 2)] 0%nat)))
   <= length [mkPoint 0 0; mkPoint (1 / 2) (1 / 2)])%nat.
Proof.
  apply (composeNoise_count_le Demo.env 2 1 (Demo.flat 1 2 0)
           [mkPoint 0 0; mkPoint (1 / 2) (1 / 2)] 0%nat).
  - discriminate.
  - cbn. lia.
Defined.

(** X13. Without anchor points [ratio] is 0 exactly for images of fewer
    than 5 pixels (the divisor of [LIConv] is then 0), and otherwise it
    lies within [1.2 / (W * H)] below 0.3. *)
Theorem composeNoise_empty_ratio_bounds (E : Env) (W H : Z) (gray : Mat)
    (g : Gen E) :
  (0 < W)%Z -> (0 < H)%Z -> (W * H < 2147483648)%Z ->
  let ratio := snd (fst (composeNoise E W H gray [] g)) in
  (ratio = 0 <-> (W * H < 5)%Z)
  /\ 0.3 - 1.2 / IZR (W * H) <= ratio.
Proof.
  intros HW HH Hsmall ratio. unfold ratio.
  rewrite empty_ratio_formula by assumption.
  assert (HN : (0 < W * H)%Z) by nia.
  pose proof (Z.div_mod (W * H) 5 ltac:(lia)) as Hdm.
  pose proof (Z.mod_pos_bound (W * H) 5 ltac:(lia)) as [Hr0 Hr5].
  assert (HNR : 0 < IZR (W * H)) by (apply IZR_lt; exact HN).
  assert (Hq : IZR (W * H) = 5 * IZR (W * H / 5) + IZR ((W * H) mod 5)).
  { rewrite Hdm at 1. now rewrite plus_IZR, mult_IZR. }
  assert (Hq0 : (0 <= W * H / 5)%Z) by (apply Z.div_pos; lia).
  assert (Hinv : 0 < / IZR (W * H)) by now apply Rinv_0_lt_compat.
  split.
  - split.
    + intros Hz.
      assert (Hzero : IZR (W * H / 5) = 0).
      { apply Rmult_eq_reg_r with (/ IZR (W * H)); [|lra].
        unfold Rdiv in Hz. lra. }
      apply eq_IZR in Hzero. lia.
    + intros Hlt. rewrite Z.div_small by lia. unfold Rdiv. ring.
  - assert (Hr4 : IZR ((W * H) mod 5) <= 4) by (apply IZR_le; lia).
    apply Rmult_le_reg_r with (IZR (W * H)); [exact HNR|].
    unfold Rdiv. rewrite Rmult_minus_distr_r.
    rewrite !Rmult_assoc, Rinv_l by lra. lra.
Qed.

Lemma composeNoise_empty_ratio_bounds_witness :
  (snd (fst (composeNoise Demo.env 2 2 (Demo.flat 2 2 0) [] 0%nat)) = 0
   <-> (2 * 2 < 5)%Z)
  /\ 0.3 - 1.2 / IZR (2 * 2)
     <= snd (fst (composeNoise Demo.env 2 2 (Demo.flat 2 2 0) [] 0%nat)).
Proof.
  apply (composeNoise_empty_ratio_bounds Demo.env 2 2 (Demo.flat 2 2 0)
           0%nat); lia.
Defined.

(** ** pencilDrawing, in general *)

Lemma float_image_idempotent (input : Mat) :
  float_image (float_image input) = float_image input.
Proof.
  assert (Hconv : forall alpha,
    float_image (convertTo_float input CV_32F alpha)
    = convertTo_float input CV_32F alpha).
  { intros alpha. unfold float_image, convertTo_float.
    cbn [depth depth_eqb rows cols channels at_]. f_equal.
    extensionality y. extensionality j. ring. }
  unfold float_image at 2 3.
  destruct (depth_eqb (depth input) CV_8U); apply Hconv.
Qed.

(** X14. With collaborators that respect the extents, [pencilDrawing]
    returns for every input and every list of anchor points, and its
    result has the width, height and channel count of the input and depth
    [CV_32F]. *)
Theorem pencilDrawing_output_extent (E : Env) (input : Mat)
    (points : list Point2f) (s : RandState E) :
  extents_ok E ->
  exists out s',
    pencilDrawing E input points s = Some (out, s')
    /\ rows out = rows input /\ cols out = cols input
    /\ channels out = channels input /\ depth out = CV_32F.
Proof.
  intros He.
  destruct (pencilDrawing_run E input points s He)
    as (out & s' & Hrun & Hext & _).
  exists out, s'. tauto.
Qed.

Lemma pencilDrawing_output_extent_witness :
  exists out s',
    pencilDrawing Demo.env (Demo.flat 2 3 (1 / 2)) [] Demo.init
    = Some (out, s')
    /\ rows out = rows (Demo.flat 2 3 (1 / 2))
    /\ cols out = cols (Demo.flat 2 3 (1 / 2))
    /\ channels out = channels (Demo.flat 2 3 (1 / 2))
    /\ depth out = CV_32F.
Proof.
  apply (pencilDrawing_output_extent Demo.env (Demo.flat 2 3 (1 / 2)) []
           Demo.init).
  exact Demo_extents_ok.
Defined.

(** X15. The conversion at the head of [pencilDrawing] is idempotent: an
    image converted beforehand (an 8-bit image scaled to [0, 1], any other
    image cast to float) is rendered exactly as the image itself. *)
Theorem pencilDrawing_preconverted (E : Env) (input : Mat)
    (points : list Point2f) (s : RandState E) :
  pencilDrawing E (float_image input) points s
  = pencilDrawing E input points s.
Proof.
  unfold pencilDrawing. rewrite float_image_idempotent.
  destruct (float_image_extent input) as (Hr & Hc & _).
  now rewrite Hr, Hc.
Qed.

(** X16. With anchor points the noise synthesis is not consulted: the
    render leaves the generator exactly [width * height] draws of
    [randInt(5)] after [getRNG] on the generator it was given. *)
Theorem pencilDrawing_generator_anchors (E : Env) (input : Mat)
    (points : list Point2f) (s : RandState E) :
  extents_ok E ->
  points <> [] ->
  exists out s',
    pencilDrawing E input points s = Some (out, s')
    /\ gen s' = gen_after E (Z.to_nat (rows input) * Z.to_nat (cols input))
                          (getRNG E (gen s)).
Proof.
  intros He Hne.
  destruct (pencilDrawing_run E input points s He)
    as (out & s' & Hrun & _).
  exists out, s'. split; [exact Hrun|].
  unfold pencilDrawing in Hrun. apply LIConv_gen in Hrun.
  destruct (float_image_extent input) as (Hr & Hc & _).
  rewrite Hr, Hc in Hrun. rewrite Hrun. cbn [gen].
  destruct points as [|p ps]; [congruence|reflexivity].
Qed.

Lemma pencilDrawing_generator_anchors_witness :
  exists out s',
    pencilDrawing Demo.env (Demo.flat 1 2 (1 / 2)) [mkPoint 0 0] Demo.init
    = Some (out, s')
    /\ gen s'
       = gen_after Demo.env
           (Z.to_nat (rows (Demo.flat 1 2 (1 / 2)))
            * Z.to_nat (cols (Demo.flat 1 2 (1 / 2))))
           (getRNG Demo.env (gen Demo.init)).
Proof.
  apply (pencilDrawing_generator_anchors Demo.env (Demo.flat 1 2 (1 / 2))
           [mkPoint 0 0] Demo.init).
  - exact Demo_extents_ok.
  - discriminate.
Defined.

(** ** pencilDrawingLOD, in general *)

(** X17. For [level <= 0] the loop over the levels is not entered:
    [pencilDrawingLOD] returns without running the single-scale pipeline
    and without touching the generator, and for [level < 0] its result is
    the zero image of the extent of the input. *)
Theorem pencilDrawingLOD_no_level (E : Env) (img : Mat)
    (points : list Point2f) (level : Z) (s : RandState E) :
  (level <= 0)%Z ->
  exists out,
    pencilDrawingLOD E img points level s = Some (out, s)
    /\ rows out = rows img /\ cols out = cols img
    /\ channels out = channels img /\ depth out = CV_32F
    /\ ((level < 0)%Z -> forall y j, at_ out y j = 0).
Proof.
  intros Hlev. unfold pencilDrawingLOD, zrange_down.
  rewrite zrange_nil by lia. cbn [rev fold_left].
  eexists. split; [reflexivity|].
  cbn [mat_div Mat_zeros rows cols channels depth at_].
  repeat (split; [reflexivity|]).
  intros _ y j. unfold Rdiv. ring.
Qed.

Lemma pencilDrawingLOD_no_level_witness :
  exists out,
    pencilDrawingLOD Demo.env (Demo.flat 2 2 (1 / 2)) [] (-1) Demo.init
    = Some (out, Demo.init)
    /\ rows out = rows (Demo.flat 2 2 (1 / 2))
    /\ cols out = cols (Demo.flat 2 2 (1 / 2))
    /\ channels out = channels (Demo.flat 2 2 (1 / 2))
    /\ depth out = CV_32F
    /\ ((-1 < 0)%Z -> forall y j, at_ out y j = 0).
Proof.
  apply (pencilDrawingLOD_no_level Demo.env (Demo.flat 2 2 (1 / 2)) [] (-1)
           Demo.init).
  lia.
Defined.

Lemma level_results_calls (E : Env) (img : Mat) (points : list Point2f)
    (ls : list Z) :
  extents_ok E ->
  (forall l, In l ls -> (1 <= l)%Z) ->
  forall s os s',
    level_results E img points ls s = Some (os, s') ->
    calls s'
    = (calls s
       + list_sum
           (map (fun l => Z.to_nat (rows (level_image E img l))
                          * Z.to_nat (cols (level_image E img l)))
                ls))%nat
    /\ length os = length ls.
Proof.
  intros He. induction ls as [|l ls IH]; intros Hls s os s' Hres;
    cbn [level_results] in Hres.
  - injection Hres as <- <-. cbn. split; [lia|reflexivity].
  - unfold level_result in Hres.
    assert (Hl : (1 <= l)%Z) by (apply Hls; now left).
    destruct (pencilDrawing_run E
                (resize E img (0, 0)%Z (1 / 2 ^ Z.to_nat (l - 1))
                        (1 / 2 ^ Z.to_nat (l - 1)) INTER_CUBIC)
                (level_anchors points l) s He)
      as (o & s1 & Hrun & _ & Hcalls).
    rewrite Hrun in Hres.
    destruct (level_results E img points ls s1) as [[os1 s2]|] eqn:Hrest;
      [|discriminate].
    injection Hres as <- <-.
    destruct (IH (fun l' H => Hls l' (or_intror H)) s1 os1 s2 Hrest)
      as [Hc Hlen].
    assert (Hi : level_image E img l
                 = resize E img (0, 0)%Z (1 / 2 ^ Z.to_nat (l - 1))
                          (1 / 2 ^ Z.to_nat (l - 1)) INTER_CUBIC)
      by (unfold level_image; now rewrite powerRZ_nat by lia).
    unfold list_sum in *. cbn [map fold_right length].
    rewrite Hc, Hcalls, Hlen, Hi.
    split; [now rewrite Nat.add_assoc|reflexivity].
Qed.

(** X18. The multi-scale render draws once per pixel of every level: with
    collaborators that respect the extents and [levels >= 1], the number
    of draws is the sum over the levels of the pixel counts of the resized
    images. *)
Theorem pencilDrawingLOD_draws (E : Env) (img : Mat)
    (points : list Point2f) (levels : Z) (s : RandState E) :
  extents_ok E ->
  (1 <= levels)%Z ->
  exists out s',
    pencilDrawingLOD E img points levels s = Some (out, s')
    /\ calls s'
       = (calls s
          + list_sum
              (map (fun l => Z.to_nat (rows (level_image E img l))
                             * Z.to_nat (cols (level_image E img l)))
                   (zrange_down levels 1)))%nat.
Proof.
  intros He Hlev.
  assert (Hls : forall l, In l (zrange_down levels 1) -> (1 <= l)%Z).
  { intros l Hl. unfold zrange_down in Hl. apply in_rev, in_zrange in Hl.
    lia. }
  destruct (level_results_run E img points (zrange_down levels 1) He s)
    as (os & s' & Hres & _).
  pose proof (LOD_loop E img points (zrange_down levels 1) Hls
                (Mat_zeros (rows img) (cols img) CV_32F (channels img)) s)
    as Hloop.
  rewrite Hres in Hloop. unfold pencilDrawingLOD.
  destruct (fold_left _ _ _) as [[out s1]|]; [|contradiction].
  destruct Hloop as (Hs & _). subst s1.
  exists (mat_div out (IZR levels)), s'. split; [reflexivity|].
  now destruct (level_results_calls E img points _ He Hls s os s' Hres).
Qed.

Lemma pencilDrawingLOD_draws_witness :
  exists out s',
    pencilDrawingLOD Demo.env (Demo.flat 2 2 (1 / 2)) [] 2 Demo.init
    = Some (out, s')
    /\ calls s'
       = (calls Demo.init
          + list_sum
              (map (fun l =>
                      Z.to_nat (rows (level_image Demo.env
                                        (Demo.flat 2 2 (1 / 2)) l))
                      * Z.to_nat (cols (level_image Demo.env
                                          (Demo.flat 2 2 (1 / 2)) l)))
                   (zrange_down 2 1)))%nat.
Proof.
  apply (pencilDrawingLOD_draws Demo.env (Demo.flat 2 2 (1 / 2)) [] 2
           Demo.init).
  - exact Demo_extents_ok.
  - lia.
Defined.

(** ** showProgress *)

Lemma progress_steps (current total : Z) :
  (0 < total)%Z -> (0 <= current <= total)%Z ->
  trunc (30 * (IZR current / IZR total)) = (30 * current / total)%Z
  /\ (0 <= 30 * current / total <= 30)%Z.
Proof.
  intros Ht Hc.
  assert (HtR : 0 < IZR total) by (apply IZR_lt; exact Ht).
  assert (HcR : 0 <= IZR current) by (apply IZR_le; lia).
  pose proof (Z.div_mod (30 * current) total ltac:(lia)) as Hdm.
  pose proof (Z.mod_pos_bound (30 * current) total Ht) as [Hr0 Hr1].
  set (q := (30 * current / total)%Z) in *.
  set (r := ((30 * current) mod total)%Z) in *.
  assert (HR : 30 * IZR current = IZR total * IZR q + IZR r).
  { change 30 with (IZR 30). rewrite <- mult_IZR, Hdm.
    now rewrite plus_IZR, mult_IZR. }
  assert (Hval : 30 * (IZR current / IZR total) = IZR q + IZR r / IZR total).
  { unfold Rdiv. rewrite <- Rmult_assoc, HR. field. lra. }
  assert (Hfrac : 0 <= IZR r / IZR total < 1).
  { apply IZR_le in Hr0. apply IZR_lt in Hr1. split.
    - apply Rmult_le_pos; [exact Hr0|]. left. now apply Rinv_0_lt_compat.
    - apply Rmult_lt_reg_r with (IZR total); [exact HtR|].
      unfold Rdiv. rewrite Rmult_assoc, Rinv_l by lra. lra. }
  assert (Hq : (0 <= q <= 30)%Z).
  { split; [apply Z.div_pos; lia|].
    apply Z.div_le_upper_bound; [exact Ht|]. nia. }
  split; [|exact Hq].
  rewrite trunc_nonneg.
  - apply Zfloor_eq. lra.
  - assert (0 <= IZR q) by (apply IZR_le; lia). lra.
Qed.

Lemma map_constant {K L : Type} (f : K -> L) (c : L) (ks : list K) :
  (forall k, In k ks -> f k = c) -> map f ks = repeat c (length ks).
Proof.
  induction ks as [|k ks IH]; intros H; cbn [map length repeat];
    [reflexivity|].
  rewrite (H k) by now left. f_equal. apply IH.
  intros k' Hk'. apply H. now right.
Qed.

Lemma progress_bar (n : Z) :
  (0 <= n <= 30)%Z ->
  map (fun i =>
         if (i =? n)%Z then Pstr ">"%string
         else if (i <? n)%Z then Pstr "="%string
         else Pstr " "%string)
      (zrange 1 31)
  = repeat (Pstr "="%string) (Z.to_nat (n - 1))
    ++ (if (1 <=? n)%Z then [Pstr ">"%string] else [])
    ++ repeat (Pstr " "%string) (Z.to_nat (30 - n)).
Proof.
  intros Hn. destruct (Z.leb_spec 1 n) as [H1 | H0].
  - rewrite (zrange_app 1 n 31) by lia.
    rewrite (zrange_cons n 31) by lia.
    rewrite map_app. cbn [map app]. rewrite Z.eqb_refl.
    f_equal; [|f_equal].
    + rewrite (map_constant _ (Pstr "="%string)).
      * rewrite zrange_length. reflexivity.
      * intros i Hi. apply in_zrange in Hi.
        destruct (Z.eqb_spec i n); [lia|].
        destruct (Z.ltb_spec i n); [reflexivity|lia].
    + rewrite (map_constant _ (Pstr " "%string)).
      * rewrite zrange_length. f_equal. lia.
      * intros i Hi. apply in_zrange in Hi.
        destruct (Z.eqb_spec i n); [lia|].
        destruct (Z.ltb_spec i n); [lia|reflexivity].
  - replace (Z.to_nat (n - 1)) with 0%nat by lia. cbn [repeat app].
    rewrite (map_constant _ (Pstr " "%string)).
    + rewrite zrange_length. f_equal. lia.
    + intros i Hi. apply in_zrange in Hi.
      destruct (Z.eqb_spec i n); [lia|].
      destruct (Z.ltb_spec i n); [lia|reflexivity].
Qed.

(** X19. For [0 <= current <= total] and [total > 0], [showProgress]
    prints the percentage, a bar of exactly 30 characters made of
    [n - 1] signs [=], one [>] and [30 - n] blanks, where
    [n = floor(30 * current / total)] (30 blanks when [n = 0]), a closing
    bracket with a carriage return, and a line feed exactly when
    [current = total]. *)
Theorem showProgress_bar (current total : Z) :
  (0 < total)%Z -> (0 <= current <= total)%Z ->
  let n := (30 * current / total)%Z in
  (0 <= n <= 30)%Z
  /\ showProgress current total
     = [Pfloat " %5.1f ["%string (100 * (IZR current / IZR total))]
       ++ repeat (Pstr "="%string) (Z.to_nat (n - 1))
       ++ (if (1 <=? n)%Z then [Pstr ">"%string] else [])
       ++ repeat (Pstr " "%string) (Z.to_nat (30 - n))
       ++ [Pstr bracket_cr]
       ++ (if (current =? total)%Z then [Pstr line_feed] else []).
Proof.
  intros Ht Hc n. destruct (progress_steps current total Ht Hc) as [Htr Hn].
  split; [exact Hn|]. unfold showProgress. cbv zeta. rewrite Htr.
  fold n. rewrite (progress_bar n Hn). now rewrite <- !app_assoc.
Qed.

Lemma showProgress_bar_witness :
  (0 <= 30 * 2 / 4 <= 30)%Z
  /\ showProgress 2 4
     = [Pfloat " %5.1f ["%string (100 * (IZR 2 / IZR 4))]
       ++ repeat (Pstr "="%string) (Z.to_nat (30 * 2 / 4 - 1))
       ++ (if (1 <=? 30 * 2 / 4)%Z then [Pstr ">"%string] else [])
       ++ repeat (Pstr " "%string) (Z.to_nat (30 - 30 * 2 / 4))
       ++ [Pstr bracket_cr]
       ++ (if (2 =? 4)%Z then [Pstr line_feed] else []).
Proof.
  apply (showProgress_bar 2 4); lia.
Defined.

Lemma showProgress_line_feeds (current total : Z) :
  length (filter is_line_feed (showProgress current total))
  = if (current =? total)%Z then 1%nat else 0%nat.
Proof.
  unfold showProgress. cbv zeta.
  rewrite !filter_app, !length_app.
  set (n := trunc _).
  assert (Hbar : forall l : list Z,
    filter is_line_feed
      (map (fun i =>
              if (i =? n)%Z then Pstr ">"%string
              else if (i <? n)%Z then Pstr "="%string
              else Pstr " "%string) l) = []).
  { induction l as [|i l IH]; cbn [map filter]; [reflexivity|].
    destruct (i =? n)%Z; [exact IH|]. destruct (i <? n)%Z; exact IH. }
  rewrite Hbar. destruct (current =? total)%Z; reflexivity.
Qed.

Section Progress.

Variable img : Mat.
Hypothesis width_pos : (0 < cols img)%Z.
Hypothesis height_pos : (0 < rows img)%Z.
Hypothesis dim_pos : (0 < channels img)%Z.
Hypothesis no_overflow :
  (channels img * rows img * cols img < 2147483648)%Z.

Lemma progress_no_wrap :
  int_mul (cols img) (channels img) = (cols img * channels img)%Z
  /\ int_mul (int_mul (channels img) (rows img)) (cols img)
     = (channels img * rows img * cols img)%Z.
Proof.
  unfold int_mul.
  assert (cols img * channels img <= channels img * rows img * cols img)%Z
    by nia.
  assert (channels img * rows img <= channels img * rows img * cols img)%Z
    by nia.
  rewrite (wrap32_small (cols img * channels img)) by nia.
  rewrite (wrap32_small (channels img * rows img)) by nia.
  rewrite wrap32_small by nia. split; reflexivity.
Qed.

Lemma progress_trace_upto (n : nat) :
  (Z.of_nat n <= rows img)%Z ->
  fold_left
    (fun (a : Z * list (Z * Z)) (y : Z) =>
       (wrap32 (fst a + int_mul (cols img) (channels img)),
        snd a ++ [(wrap32 (fst a + int_mul (cols img) (channels img)),
                   int_mul (int_mul (channels img) (rows img)) (cols img))]))
    (zrange 0 (Z.of_nat n)) (0%Z, [])
  = ((Z.of_nat n * (cols img * channels img))%Z,
     map (fun y => (((y + 1) * (cols img * channels img))%Z,
                    (channels img * rows img * cols img)%Z))
         (zrange 0 (Z.of_nat n))).
Proof.
  destruct progress_no_wrap as [Hw Ht]. rewrite Hw, Ht.
  induction n as [|n IH]; intros Hn; [reflexivity|].
  rewrite Nat2Z.inj_succ. unfold Z.succ.
  rewrite zrange_snoc by lia. rewrite fold_left_app, IH by lia.
  cbn [fold_left fst snd]. rewrite map_app. cbn [map].
  assert (Hle : ((Z.of_nat n + 1) * (cols img * channels img)
                 <= channels img * rows img * cols img)%Z) by nia.
  rewrite wrap32_small by nia.
  replace (Z.of_nat n * (cols img * channels img) + cols img * channels img)%Z
    with ((Z.of_nat n + 1) * (cols img * channels img))%Z by ring.
  reflexivity.
Qed.

Lemma LIConv_progress_trace :
  LIConv_progress img
  = map (fun y => (((y + 1) * (cols img * channels img))%Z,
                   (channels img * rows img * cols img)%Z))
        (zrange 0 (rows img)).
Proof.
  pose proof (progress_trace_upto (Z.to_nat (rows img))) as H.
  rewrite Z2Nat.id in H by lia. specialize (H ltac:(lia)).
  unfold LIConv_progress. cbv zeta. now rewrite H.
Qed.

Lemma progress_line_feeds (ys : list Z) :
  (forall y, In y ys -> (0 <= y < rows img - 1)%Z) ->
  filter is_line_feed
    (flat_map (fun c => showProgress (fst c) (snd c))
       (map (fun y => (((y + 1) * (cols img * channels img))%Z,
                       (channels img * rows img * cols img)%Z)) ys))
  = [].
Proof.
  induction ys as [|y ys IH]; intros H; cbn [map flat_map];
    [reflexivity|].
  rewrite filter_app, IH by (intros y' Hy'; apply H; now right).
  rewrite app_nil_r. apply length_zero_iff_nil.
  rewrite showProgress_line_feeds. cbn [fst snd].
  specialize (H y (or_introl eq_refl)).
  destruct (Z.eqb_spec ((y + 1) * (cols img * channels img))
                       (channels img * rows img * cols img));
    [nia|reflexivity].
Qed.

End Progress.

(** X20. On an image with positive extents whose cell count fits an
    [int], [LIConv] reports [(y + 1) * width * dim] of
    [dim * height * width] steps after row [y]: the report is complete at
    the last row and only there, so that the line feed is printed exactly
    once, as the last thing printed. *)
Theorem LIConv_progress_complete (img : Mat) :
  (0 < cols img)%Z -> (0 < rows img)%Z -> (0 < channels img)%Z ->
  (channels img * rows img * cols img < 2147483648)%Z ->
  LIConv_progress img
  = map (fun y => (((y + 1) * (cols img * channels img))%Z,
                   (channels img * rows img * cols img)%Z))
        (zrange 0 (rows img))
  /\ length (filter is_line_feed (LIConv_printed img)) = 1%nat
  /\ last (LIConv_printed img) (Pstr ""%string) = Pstr line_feed.
Proof.
  intros HW HH Hd Hsmall.
  pose proof (LIConv_progress_trace img HW HH Hd Hsmall) as Htrace.
  split; [exact Htrace|].
  unfold LIConv_printed. rewrite Htrace.
  assert (Hz : zrange 0 (rows img)
               = zrange 0 (rows img - 1) ++ [(rows img - 1)%Z])
    by (rewrite <- zrange_snoc by lia; f_equal; lia).
  rewrite Hz, map_app, flat_map_app.
  cbn [map flat_map fst snd]. rewrite app_nil_r.
  replace ((rows img - 1 + 1) * (cols img * channels img))%Z
    with (channels img * rows img * cols img)%Z by ring.
  split.
  - rewrite filter_app, length_app.
    rewrite (progress_line_feeds img)
      by (try assumption; intros y Hy; now apply in_zrange in Hy).
    rewrite showProgress_line_feeds, Z.eqb_refl. reflexivity.
  - unfold showProgress at 2. cbv zeta. rewrite Z.eqb_refl.
    rewrite !app_assoc. apply last_last.
Qed.

Lemma LIConv_progress_complete_witness :
  LIConv_progress (Demo.flat 2 3 (1 / 2))
  = map (fun y => (((y + 1) * (3 * 1))%Z, (1 * 2 * 3)%Z)) (zrange 0 2)
  /\ length (filter is_line_feed (LIConv_printed (Demo.flat 2 3 (1 / 2))))
     = 1%nat
  /\ last (LIConv_printed (Demo.flat 2 3 (1 / 2))) (Pstr ""%string)
     = Pstr line_feed.
Proof.
  apply (LIConv_progress_complete (Demo.flat 2 3 (1 / 2))); cbn; lia.
Defined.
